(** * Request-scoped key/value storage (package [context], file context.go)

    A shallow embedding of the sharded store and of its public operations,
    followed by the properties of the store that are established on it.

    Modelling choices, all taken from the source:
    - a [*http.Request] is its address, a [uintptr], here an [N];
    - an [interface{}] is the nil interface or a dynamic value. The values
      used as keys are drawn from a type [K] on which Go's [==] is equality
      (a map key has to be comparable; this leaves out a floating-point NaN,
      which is equal to no key, itself included); stored values are drawn
      from any type [V];
    - Go maps are reference objects: the inner attribute tables live in a
      heap of map objects and [b.data] holds references to them, so that
      copies and aliases can be told apart;
    - the fixed array [bags] is a vector of [numberOfBags] shards, and a
      pointer [&bags[i]] is the index [i];
    - [time.Now().Unix()] reads a clock that is part of the state;
    - a Go function is a computation on the state that returns or panics;
    - the first part of the file follows the calls of one goroutine that are
      made with such keys on shards whose lock is free: each of these calls
      takes the lock of its shard and releases it, so the lock carries no
      state there. The last part ([Sync]) adds the state of the locks and
      the keys that cannot be hashed, and shows that it agrees with the
      first part on those calls. *)

From stdpp Require Import base numbers fin vector list gmap strings.

Local Open Scope N_scope.

(** ** Values *)

(** [interface{}]: the nil interface, or a dynamic value. *)
Inductive iface (dyn : Type) : Type :=
  | Nil
  | Dyn (d : dyn).
Arguments Nil {dyn}.
Arguments Dyn {dyn} d.

Definition iface_to_option {dyn} (x : iface dyn) : option dyn :=
  match x with Nil => None | Dyn d => Some d end.

Definition iface_of_option {dyn} (x : option dyn) : iface dyn :=
  match x with None => Nil | Some d => Dyn d end.

Global Instance iface_eq_dec {dyn} `{EqDecision dyn} : EqDecision (iface dyn).
Proof. solve_decision. Defined.

Global Instance iface_countable {dyn} `{Countable dyn} : Countable (iface dyn).
Proof.
  apply (inj_countable' iface_to_option iface_of_option).
  intros []; reflexivity.
Defined.

(** [const numberOfBags = 128] *)
Definition numberOfBags : nat := 128.

(** Address of a map object in the heap. *)
Definition loc := positive.

(** A value of type [*http.Request]. *)
Definition request := N.

(** How a call ends: it returns a result, or it panics. *)
Inductive outcome (A : Type) : Type :=
  | Ret (a : A)
  | Panic (msg : string).
Arguments Ret {A} a.
Arguments Panic {A} msg.

Section Store.
Context {K V : Type} `{Countable K} {ResponseWriter : Type}.

(** A Go map value [map[interface{}]interface{}]: nil, or a reference to a
    map object. *)
Definition mapref := option loc.

(** The contents of a map object. *)
Local Abbreviation table := (gmap (iface K) (iface V)).

(** [type databag struct { mutex; data; datat }] *)
Record databag := Databag {
  data : gmap request mapref;
  datat : gmap request Z
}.

(** The whole program state: the package variable [bags], the heap of map
    objects that map values refer to, and the reading of the wall clock. *)
Record world := World {
  bags : vec databag numberOfBags;
  heap : gmap loc table;
  now : Z
}.

(** ** Computations: state passing, with panics *)

Definition M (A : Type) : Type := world → outcome A * world.

Definition ret {A} (a : A) : M A := λ w, (Ret a, w).

Definition bind {A B} (m : M A) (k : A → M B) : M B :=
  λ w, match m w with
       | (Ret a, w') => k a w'
       | (Panic msg, w') => (Panic msg, w')
       end.

(** [defer d; m]: [d] runs when [m] is left, by return or by panic; a panic
    of [m] goes on after [d] unless [d] panics itself. *)
Definition defer {A} (d : M unit) (m : M A) : M A :=
  λ w, match m w with
       | (res, w') =>
           match d w' with
           | (Ret _, w'') => (res, w'')
           | (Panic msg, w'') => (Panic msg, w'')
           end
       end.

Definition panic {A} (msg : string) : M A := λ w, (Panic msg, w).

Notation "x <~ m ; k" := (bind m (λ x, k))
  (at level 20, m at level 100, k at level 200, only parsing).
Notation "' p <~ m ; k" := (bind m (λ x, let 'p := x in k))
  (at level 20, p pattern, m at level 100, k at level 200, only parsing).
Notation "m ;; k" := (bind m (λ _, k))
  (at level 100, k at level 200, only parsing, right associativity).

(** ** Primitive statements of the source *)

(** [func init()]: every shard starts with two empty maps. The outer maps
    belong to one shard each and never escape it, so they are kept by
    value. *)
Definition empty_bag : databag := Databag ∅ ∅.

Definition init (t : Z) : world := World (vreplicate numberOfBags empty_bag) ∅ t.

Lemma offset_lt (r : request) : (N.to_nat (r mod N.of_nat numberOfBags) < numberOfBags)%nat.
Proof.
  assert (r mod N.of_nat numberOfBags < N.of_nat numberOfBags) by (apply N.mod_lt; done).
  lia.
Qed.

(** [uintptr(unsafe.Pointer(r)) % numberOfBags], as an index into [bags]. *)
Definition offset (r : request) : fin numberOfBags :=
  nat_to_fin (offset_lt r).

(** [func requestBag(r *http.Request) *databag]:
    [var offset = ...; return &bags[offset]]. *)
Definition requestBag (r : request) : M (fin numberOfBags) :=
  let offset := offset r in
  ret offset.

(** [*b], reading through the shard pointer. *)
Definition load_bag (b : fin numberOfBags) : M databag :=
  λ w, (Ret (bags w !!! b), w).

Definition store_bag (b : fin numberOfBags) (x : databag) : M unit :=
  λ w, (Ret tt, World (vinsert b x (bags w)) (heap w) (now w)).

(** [b.data[r]]: the zero value, a nil map, when [r] is not a key. *)
Definition data_index (b : fin numberOfBags) (r : request) : M mapref :=
  x <~ load_bag b ; ret (default None (data x !! r)).

(** [ctx, ok := b.data[r]] *)
Definition data_lookup (b : fin numberOfBags) (r : request) : M (mapref * bool) :=
  x <~ load_bag b ;
  ret (match data x !! r with Some m => (m, true) | None => (None, false) end).

(** [b.data[r] = m] *)
Definition data_assign (b : fin numberOfBags) (r : request) (m : mapref) : M unit :=
  x <~ load_bag b ; store_bag b (Databag (<[r := m]> (data x)) (datat x)).

(** [b.datat[r] = t] *)
Definition datat_assign (b : fin numberOfBags) (r : request) (t : Z) : M unit :=
  x <~ load_bag b ; store_bag b (Databag (data x) (<[r := t]> (datat x))).

(** [delete(b.data, r)] *)
Definition data_delete (b : fin numberOfBags) (r : request) : M unit :=
  x <~ load_bag b ; store_bag b (Databag (delete r (data x)) (datat x)).

(** [delete(b.datat, r)] *)
Definition datat_delete (b : fin numberOfBags) (r : request) : M unit :=
  x <~ load_bag b ; store_bag b (Databag (data x) (delete r (datat x))).

(** [time.Now().Unix()] *)
Definition time_Now_Unix : M Z := λ w, (Ret (now w), w).

(** The contents a reference denotes. A nil map reads as an empty one; a
    reference always denotes an allocated object, and the total lookup only
    gives the function a value at addresses outside the heap. *)
Definition contents (m : mapref) (w : world) : table :=
  match m with
  | None => ∅
  | Some l => heap w !!! l
  end.

(** [make(map[interface{}]interface{}, n)]: a new, empty map object; the
    capacity hint [n] has no meaning beyond performance. *)
Definition make_map : M mapref :=
  λ w, let l := fresh (dom (heap w)) in
       (Ret (Some l), World (bags w) (<[l := ∅]> (heap w)) (now w)).

(** [m[key]] *)
Definition map_index (m : mapref) (key : iface K) : M (iface V) :=
  λ w, (Ret (default Nil (contents m w !! key)), w).

(** [value, ok := m[key]] *)
Definition map_lookup (m : mapref) (key : iface K) : M (iface V * bool) :=
  λ w, (Ret (match contents m w !! key with
             | Some v => (v, true)
             | None => (Nil, false)
             end), w).

(** [m[key] = val]; panics on a nil map. *)
Definition map_assign (m : mapref) (key : iface K) (val : iface V) : M unit :=
  match m with
  | None => panic "assignment to entry in nil map"
  | Some l =>
      λ w, (Ret tt, World (bags w) (<[l := <[key := val]> (heap w !!! l)]> (heap w)) (now w))
  end.

(** [delete(m, key)]; no-op on a nil map. *)
Definition map_delete (m : mapref) (key : iface K) : M unit :=
  match m with
  | None => ret tt
  | Some l =>
      λ w, (Ret tt, World (bags w) (<[l := delete key (heap w !!! l)]> (heap w)) (now w))
  end.

(** The entries a [for k, v := range m] visits, in the order of one run. *)
Definition map_entries (m : mapref) : M (list (iface K * iface V)) :=
  λ w, (Ret (map_to_list (contents m w)), w).

(** [for k, v := range ... { result[k] = v }] over the visited entries. *)
Fixpoint copy_entries (result : mapref) (kvs : list (iface K * iface V)) : M unit :=
  match kvs with
  | [] => ret tt
  | (k, v) :: rest => map_assign result k v ;; copy_entries result rest
  end.

(** ** The attribute store API *)

(** [func Set(r *http.Request, key, val interface{})] *)
Definition Set_ (r : request) (key : iface K) (val : iface V) : M unit :=
  b <~ requestBag r ;
  ctx <~ data_index b r ;
  (if decide (ctx = None)
   then m <~ make_map ;
        data_assign b r m ;;
        t <~ time_Now_Unix ;
        datat_assign b r t
   else ret tt) ;;
  ctx <~ data_index b r ;
  map_assign ctx key val.

(** [func Get(r *http.Request, key interface{}) interface{}] *)
Definition Get (r : request) (key : iface K) : M (iface V) :=
  b <~ requestBag r ;
  ctx <~ data_index b r ;
  if decide (ctx ≠ None)
  then map_index ctx key
  else ret Nil.

(** [func GetOk(r *http.Request, key interface{}) (interface{}, bool)] *)
Definition GetOk (r : request) (key : iface K) : M (iface V * bool) :=
  b <~ requestBag r ;
  '(_, ok) <~ data_lookup b r ;
  if ok
  then ctx <~ data_index b r ; map_lookup ctx key
  else ret (Nil, false).

(** [func GetAll(r *http.Request) map[interface{}]interface{}] *)
Definition GetAll (r : request) : M mapref :=
  b <~ requestBag r ;
  '(context, ok) <~ data_lookup b r ;
  if ok
  then result <~ make_map ;
       kvs <~ map_entries context ;
       copy_entries result kvs ;;
       ret result
  else ret None.

(** [func GetAllOk(r *http.Request) (map[interface{}]interface{}, bool)] *)
Definition GetAllOk (r : request) : M (mapref * bool) :=
  b <~ requestBag r ;
  '(context, ok) <~ data_lookup b r ;
  result <~ make_map ;
  kvs <~ map_entries context ;
  copy_entries result kvs ;;
  ret (result, ok).

(** [func Delete(r *http.Request, key interface{})] *)
Definition Delete (r : request) (key : iface K) : M unit :=
  b <~ requestBag r ;
  ctx <~ data_index b r ;
  if decide (ctx ≠ None)
  then ctx <~ data_index b r ; map_delete ctx key
  else ret tt.

(** [func clear(r *http.Request)]: Clear without the lock. *)
Definition clear (r : request) : M unit :=
  b <~ requestBag r ;
  data_delete b r ;;
  datat_delete b r.

(** [func Clear(r *http.Request)] *)
Definition Clear (r : request) : M unit :=
  b <~ requestBag r ;
  clear r.

(** [http.Handler], given by its method [ServeHTTP(w, r)]. *)
Definition Handler : Type := ResponseWriter → request → M unit.

Definition ServeHTTP (h : Handler) (rw : ResponseWriter) (r : request) : M unit :=
  h rw r.

(** [func ClearHandler(h http.Handler) http.Handler]:
    [defer Clear(r); h.ServeHTTP(w, r)]. *)
Definition ClearHandler (h : Handler) : Handler :=
  λ rw r, defer (Clear r) (ServeHTTP h rw r).

(** ** What a caller does with a map it was handed *)

(** One statement of the caller on a map [m]: [m[key] = val] or
    [delete(m, key)]. *)
Inductive mutation : Type :=
  | Assign (key : iface K) (val : iface V)
  | Remove (key : iface K).

Definition mutate (m : mapref) (x : mutation) : M unit :=
  match x with
  | Assign key val => map_assign m key val
  | Remove key => map_delete m key
  end.

Fixpoint mutate_all (m : mapref) (xs : list mutation) : M unit :=
  match xs with
  | [] => ret tt
  | x :: rest => mutate m x ;; mutate_all m rest
  end.

(** ** Histories of the store *)

(** A call of the API, or the wall clock moving on to [t]. *)
Inductive call : Type :=
  | CallSet (r : request) (key : iface K) (val : iface V)
  | CallGet (r : request) (key : iface K)
  | CallGetOk (r : request) (key : iface K)
  | CallGetAll (r : request)
  | CallGetAllOk (r : request)
  | CallDelete (r : request) (key : iface K)
  | CallClear (r : request)
  | Tick (t : Z).

Definition exec (c : call) : M unit :=
  match c with
  | CallSet r key val => Set_ r key val
  | CallGet r key => Get r key ;; ret tt
  | CallGetOk r key => GetOk r key ;; ret tt
  | CallGetAll r => GetAll r ;; ret tt
  | CallGetAllOk r => GetAllOk r ;; ret tt
  | CallDelete r key => Delete r key
  | CallClear r => Clear r
  | Tick t => λ w, (Ret tt, World (bags w) (heap w) t)
  end.

Definition step (w : world) (c : call) : world := (exec c w).2.

(** The state after the calls [cs], made in order from [w]. *)
Definition run (cs : list call) (w : world) : world := foldl step w cs.

(** The states the program can be in: those some history leads to from the
    state [init] leaves, whatever the clock reads then. *)
Definition reachable (w : world) : Prop :=
  ∃ (t0 : Z) (cs : list call), w = run cs (init t0).

(** Whether the history [cs] leaves [r] with a table: the last call among
    its [Set(r, ...)] and [Clear(r)] is a [Set]. *)
Definition live_after (r : request) (b : bool) (c : call) : bool :=
  match c with
  | CallSet r' _ _ => if decide (r' = r) then true else b
  | CallClear r' => if decide (r' = r) then false else b
  | _ => b
  end.

Definition live (r : request) (cs : list call) : bool :=
  foldl (live_after r) false cs.

(** ** Views of a state *)

(** The shard of [r]. *)
Definition bag_of (w : world) (r : request) : databag := bags w !!! offset r.

(** The entry of [r] in [data] of its shard. *)
Definition table_of (w : world) (r : request) : option mapref :=
  data (bag_of w r) !! r.

(** [r] is registered: it is a key of [data] in its shard. *)
Definition registered (w : world) (r : request) : Prop := is_Some (table_of w r).

Definition unregistered (w : world) (r : request) : Prop := table_of w r = None.

(** The attributes stored for [r]; none when [r] has no table. *)
Definition attributes (w : world) (r : request) : table :=
  contents (default None (table_of w r)) w.

(** The two tables of every shard have the same keys. *)
Definition consistent (w : world) : Prop :=
  ∀ (i : fin numberOfBags) (r : request),
    is_Some (datat (bags w !!! i) !! r) ↔ is_Some (data (bags w !!! i) !! r).

(** Every map value stored in [data] is a reference to an allocated map
    object: no nil map is stored and no reference dangles. *)
Definition allocated (w : world) : Prop :=
  ∀ (i : fin numberOfBags) (r : request) (m : mapref),
    data (bags w !!! i) !! r = Some m → ∃ l, m = Some l ∧ is_Some (heap w !! l).

(** Well-formed states. Every reachable state is well formed. *)
Definition wf (w : world) : Prop := consistent w ∧ allocated w.

(** No map object ever disappears from the heap. *)
Definition heap_grows (w w' : world) : Prop :=
  ∀ l, is_Some (heap w !! l) → is_Some (heap w' !! l).

(** One round of a copying loop, on the contents of the destination. *)
Definition put (acc : table) (kv : iface K * iface V) : table :=
  <[kv.1 := kv.2]> acc.

(** No two entries of [data], in whatever shards, refer to the same map
    object. *)
Definition separated (w : world) : Prop :=
  ∀ (i i' : fin numberOfBags) (r r' : request) (l : loc),
    data (bags w !!! i) !! r = Some (Some l) →
    data (bags w !!! i') !! r' = Some (Some l) →
    i = i' ∧ r = r'.

(** Every entry of [data] sits in the shard that [requestBag] gives for its
    key. *)
Definition homed (w : world) : Prop :=
  ∀ (i : fin numberOfBags) (r : request),
    is_Some (data (bags w !!! i) !! r) → i = offset r.

(** No entry of [data] refers to the map object at [l]. *)
Definition unreferenced (w : world) (l : loc) : Prop :=
  ∀ (i : fin numberOfBags) (r : request), data (bags w !!! i) !! r ≠ Some (Some l).

(** The request whose stored attributes a call is made to change, if any. *)
Definition written (c : call) : option request :=
  match c with
  | CallSet r _ _ => Some r
  | CallDelete r _ => Some r
  | CallClear r => Some r
  | _ => None
  end.

(** Along a history: the reading of the clock, and the reading it had when
    the table that [r] has now, if it has one, was made. *)
Definition stamp_after (r : request) (st : Z * option Z) (c : call) : Z * option Z :=
  match c with
  | CallSet r' _ _ => if decide (r' = r) then (st.1, Some (default st.1 st.2)) else st
  | CallClear r' => if decide (r' = r) then (st.1, None) else st
  | Tick t => (t, st.2)
  | _ => st
  end.

Definition stamp (r : request) (t0 : Z) (cs : list call) : Z * option Z :=
  foldl (stamp_after r) (t0, None) cs.

(** Along a history: whether [r] has a table, and whether a [Delete] of [r]
    has run while it had that table. *)
Definition deleted_after (r : request) (st : bool * bool) (c : call) : bool * bool :=
  match c with
  | CallSet r' _ _ => if decide (r' = r) then (true, st.2) else st
  | CallClear r' => if decide (r' = r) then (false, false) else st
  | CallDelete r' _ => if decide (r' = r) then (st.1, st.1 || st.2) else st
  | _ => st
  end.

Definition deleted_from (r : request) (cs : list call) : bool :=
  (foldl (deleted_after r) (false, false) cs).2.

(** * Properties *)

(** ** The effect of each operation *)

Ltac go_unfold :=
  unfold Set_, Get, GetOk, GetAll, GetAllOk, Delete, Clear, clear,
    requestBag, data_index, data_lookup, data_assign, datat_assign,
    data_delete, datat_delete, load_bag, store_bag, time_Now_Unix,
    make_map, map_index, map_lookup, map_entries, bind, ret, panic.

Lemma foldl_put (kvs : list (iface K * iface V)) (acc : table) :
  NoDup kvs.*1 → foldl put acc kvs = list_to_map kvs ∪ acc.
Proof.
  revert acc. induction kvs as [|[k v] kvs IH]; intros acc Hnd.
  - simpl. by rewrite (left_id_L ∅ (∪)).
  - rewrite fmap_cons in Hnd. apply NoDup_cons in Hnd as [Hk Hnd].
    simpl. rewrite IH by done.
    unfold put; simpl. rewrite <- insert_union_l.
    symmetry. apply insert_union_r, not_elem_of_list_to_map_1, Hk.
Qed.

(** Whatever the order in which [range] visits the entries of [m], copying
    them into an empty map yields [m]. *)
Lemma foldl_put_entries (m : table) (kvs : list (iface K * iface V)) :
  kvs ≡ₚ map_to_list m → foldl put ∅ kvs = m.
Proof.
  intros Hp. rewrite foldl_put.
  - rewrite (right_id_L ∅ (∪)).
    rewrite (list_to_map_proper kvs (map_to_list m)); [apply list_to_map_to_list| |done].
    rewrite Hp. apply NoDup_fst_map_to_list.
  - rewrite Hp. apply NoDup_fst_map_to_list.
Qed.

Lemma copy_entries_eq (l : loc) (kvs : list (iface K * iface V)) (w : world) (t0 : table) :
  heap w !! l = Some t0 →
  copy_entries (Some l) kvs w
  = (Ret tt, World (bags w) (<[l := foldl put t0 kvs]> (heap w)) (now w)).
Proof.
  revert w t0. induction kvs as [|[k v] kvs IH]; intros w t0 Hl; simpl.
  - unfold ret. rewrite insert_id by done. by destruct w.
  - unfold bind; simpl.
    rewrite (lookup_total_correct _ _ _ Hl).
    rewrite (IH _ (<[k := v]> t0)) by (simpl; apply lookup_insert_eq).
    simpl. by rewrite insert_insert_eq.
Qed.

(** A fresh address is outside the heap, so allocating there changes the
    contents of no reference. *)
Lemma fresh_unallocated (w : world) : heap w !! fresh (dom (heap w)) = None.
Proof. apply not_elem_of_dom, is_fresh. Qed.

Lemma contents_alloc (m : mapref) (w : world) (bs : vec databag numberOfBags) (t : Z) :
  contents m (World bs (<[fresh (dom (heap w)) := ∅]> (heap w)) t) = contents m w.
Proof.
  destruct m as [l|]; simpl; [|done].
  destruct (decide (fresh (dom (heap w)) = l)) as [<-|Hne].
  - rewrite lookup_total_insert_eq, lookup_total_alt, fresh_unallocated. done.
  - by rewrite lookup_total_insert_ne.
Qed.

Lemma Get_eq (r : request) (key : iface K) (w : world) :
  Get r key w = (Ret (default Nil (attributes w r !! key)), w).
Proof.
  go_unfold. unfold attributes, table_of, bag_of. simpl.
  destruct (data (bags w !!! offset r) !! r) as [[l|]|] eqn:E; simpl;
    rewrite ?E; simpl; rewrite ?lookup_empty; done.
Qed.

Lemma GetOk_eq (r : request) (key : iface K) (w : world) :
  GetOk r key w
  = (Ret (match attributes w r !! key with
          | Some v => (v, true)
          | None => (Nil, false)
          end), w).
Proof.
  go_unfold. unfold attributes, table_of, bag_of. simpl.
  destruct (data (bags w !!! offset r) !! r) as [[l|]|] eqn:E; simpl;
    rewrite ?E; simpl; rewrite ?lookup_empty; done.
Qed.

Lemma GetAllOk_eq (r : request) (w : world) :
  GetAllOk r w
  = (Ret (Some (fresh (dom (heap w))), bool_decide (registered w r)),
     World (bags w) (<[fresh (dom (heap w)) := attributes w r]> (heap w)) (now w)).
Proof.
  go_unfold. unfold attributes, registered, table_of, bag_of. simpl.
  set (l := fresh (dom (heap w))).
  destruct (data (bags w !!! offset r) !! r) as [m|] eqn:Hm; simpl.
  - rewrite (copy_entries_eq _ _ _ ∅) by (simpl; apply lookup_insert_eq). simpl.
    rewrite insert_insert_eq, (foldl_put_entries (contents m _)) by done.
    subst l. by rewrite contents_alloc.
  - by rewrite map_to_list_empty.
Qed.

Lemma GetAll_eq (r : request) (w : world) :
  GetAll r w
  = if bool_decide (registered w r)
    then (Ret (Some (fresh (dom (heap w)))),
          World (bags w) (<[fresh (dom (heap w)) := attributes w r]> (heap w)) (now w))
    else (Ret None, w).
Proof.
  go_unfold. unfold attributes, registered, table_of, bag_of. simpl.
  set (l := fresh (dom (heap w))).
  destruct (data (bags w !!! offset r) !! r) as [m|] eqn:Hm; simpl.
  - rewrite (copy_entries_eq _ _ _ ∅) by (simpl; apply lookup_insert_eq). simpl.
    rewrite insert_insert_eq, (foldl_put_entries (contents m _)) by done.
    subst l. by rewrite contents_alloc.
  - done.
Qed.

Lemma vinsert_vinsert {A n} (i : fin n) (x y : A) (v : vec A n) :
  vinsert i x (vinsert i y v) = vinsert i x v.
Proof.
  apply vec_eq; intros j. destruct (decide (i = j)) as [<-|Hne].
  - by rewrite !vlookup_insert.
  - by rewrite !vlookup_insert_ne.
Qed.

Lemma Set_eq (r : request) (key : iface K) (val : iface V) (w : world) :
  Set_ r key val w
  = match default None (table_of w r) with
    | Some l =>
        (Ret tt,
         World (bags w) (<[l := <[key := val]> (heap w !!! l)]> (heap w)) (now w))
    | None =>
        let l := fresh (dom (heap w)) in
        (Ret tt,
         World (vinsert (offset r)
                  (Databag (<[r := Some l]> (data (bag_of w r)))
                           (<[r := now w]> (datat (bag_of w r))))
                  (bags w))
               (<[l := {[key := val]}]> (heap w)) (now w))
    end.
Proof.
  go_unfold. unfold table_of, bag_of. simpl.
  destruct (data (bags w !!! offset r) !! r) as [[l|]|] eqn:E; simpl;
    rewrite ?E; simpl; [done| |];
    rewrite !vlookup_insert; simpl; rewrite lookup_insert_eq; simpl;
    rewrite vinsert_vinsert, lookup_total_insert_eq, insert_insert_eq;
    by rewrite insert_empty.
Qed.

Lemma Delete_eq (r : request) (key : iface K) (w : world) :
  Delete r key w
  = match default None (table_of w r) with
    | Some l =>
        (Ret tt,
         World (bags w) (<[l := delete key (heap w !!! l)]> (heap w)) (now w))
    | None => (Ret tt, w)
    end.
Proof.
  go_unfold. unfold table_of, bag_of. simpl.
  destruct (data (bags w !!! offset r) !! r) as [[l|]|] eqn:E; simpl;
    rewrite ?E; done.
Qed.

Lemma Clear_eq (r : request) (w : world) :
  Clear r w
  = (Ret tt,
     World (vinsert (offset r)
              (Databag (delete r (data (bag_of w r))) (delete r (datat (bag_of w r))))
              (bags w))
           (heap w) (now w)).
Proof.
  go_unfold. unfold bag_of. simpl.
  by rewrite vlookup_insert, vinsert_vinsert.
Qed.

(** ** What the views show after each write *)

Lemma table_of_Set (r : request) (key : iface K) (val : iface V) (w : world) :
  ∃ l, table_of (Set_ r key val w).2 r = Some (Some l).
Proof.
  rewrite Set_eq. unfold table_of, bag_of.
  destruct (data (bags w !!! offset r) !! r) as [[l|]|] eqn:E; simpl;
    rewrite ?E, ?vlookup_insert; simpl; rewrite ?lookup_insert_eq; eauto.
Qed.

Lemma attributes_Set (r : request) (key : iface K) (val : iface V) (w : world) :
  attributes (Set_ r key val w).2 r = <[key := val]> (attributes w r).
Proof.
  rewrite Set_eq. unfold attributes, table_of, bag_of.
  destruct (data (bags w !!! offset r) !! r) as [[l|]|] eqn:E; simpl;
    rewrite ?E, ?vlookup_insert; simpl; rewrite ?lookup_insert_eq; simpl;
    by rewrite lookup_total_insert_eq, ?insert_empty.
Qed.

Lemma Set_returns (r : request) (key : iface K) (val : iface V) (w : world) :
  (Set_ r key val w).1 = Ret tt.
Proof. rewrite Set_eq. by destruct (default None (table_of w r)). Qed.

Lemma attributes_Delete (r : request) (key : iface K) (w : world) :
  attributes (Delete r key w).2 r = delete key (attributes w r).
Proof.
  rewrite Delete_eq. unfold attributes, table_of, bag_of.
  destruct (data (bags w !!! offset r) !! r) as [[l|]|] eqn:E; simpl;
    rewrite ?E; simpl; by rewrite ?lookup_total_insert_eq, ?delete_empty.
Qed.

Lemma Delete_returns (r : request) (key : iface K) (w : world) :
  (Delete r key w).1 = Ret tt.
Proof. rewrite Delete_eq. by destruct (default None (table_of w r)). Qed.

Lemma unregistered_not_registered (w : world) (r : request) :
  unregistered w r → bool_decide (registered w r) = false.
Proof.
  unfold unregistered, registered. intros ->.
  apply bool_decide_eq_false_2. by intros [? ?].
Qed.

Lemma unregistered_attributes (w : world) (r : request) :
  unregistered w r → attributes w r = ∅.
Proof. unfold unregistered, attributes. by intros ->. Qed.

Lemma table_of_Clear (r : request) (w : world) :
  unregistered (Clear r w).2 r.
Proof.
  rewrite Clear_eq. unfold unregistered, table_of, bag_of; simpl.
  rewrite vlookup_insert; simpl. apply lookup_delete_eq.
Qed.

Lemma world_eta (w : world) : World (bags w) (heap w) (now w) = w.
Proof. by destruct w. Qed.

Lemma databag_eta (b : databag) : Databag (data b) (datat b) = b.
Proof. by destruct b. Qed.

(** ** Reads after writes *)

(** C1. Right after [Set(r, k, v)], from any state at all (so also after an
    earlier [Set(r, k, v')]): [Set] has returned, [GetOk(r, k)] returns
    [(v, true)], [Get(r, k)] returns [v], and [GetAllOk(r)] returns [true]
    with a map in which [k] is bound to [v]. *)
Theorem Set_then_read (r : request) (k : iface K) (v : iface V) (w : world) :
  ∃ w', Set_ r k v w = (Ret tt, w') ∧
    GetOk r k w' = (Ret (v, true), w') ∧
    Get r k w' = (Ret v, w') ∧
    ∃ l w'' m, GetAllOk r w' = (Ret (Some l, true), w'') ∧
      heap w'' !! l = Some m ∧ m !! k = Some v.
Proof.
  exists (Set_ r k v w).2. split; [|split; [|split]].
  - rewrite <- (Set_returns r k v w). by destruct (Set_ r k v w).
  - rewrite GetOk_eq, attributes_Set, lookup_insert_eq. done.
  - rewrite Get_eq, attributes_Set, lookup_insert_eq. done.
  - destruct (table_of_Set r k v w) as [l Hl].
    eexists _, _, _. split; [|split].
    + rewrite GetAllOk_eq. rewrite bool_decide_eq_true_2; [done|].
      unfold registered. rewrite Hl. eauto.
    + simpl. apply lookup_insert_eq.
    + rewrite attributes_Set. apply lookup_insert_eq.
Qed.

(** C2. For a request that has no table, [GetAllOk] returns an empty map and
    [false], and for every key [GetOk] returns [(nil, false)] and [Get]
    returns nil; the two lookups leave the state as it is. A request that no
    [Set] was ever called on has no table ([never_set_unregistered]). *)
Theorem unregistered_reads (r : request) (w : world) :
  unregistered w r →
  (∃ l w', GetAllOk r w = (Ret (Some l, false), w') ∧ heap w' !! l = Some ∅) ∧
  ∀ k, GetOk r k w = (Ret (Nil, false), w) ∧ Get r k w = (Ret Nil, w).
Proof.
  intros Hr. split.
  - eexists _, _. split.
    + rewrite GetAllOk_eq, (unregistered_not_registered _ _ Hr). done.
    + simpl. rewrite (unregistered_attributes _ _ Hr). apply lookup_insert_eq.
  - intros k.
    rewrite GetOk_eq, Get_eq, (unregistered_attributes _ _ Hr), lookup_empty. done.
Qed.

(** C3. [Clear(r)], from any state (so after any number of [Set]s for [r]),
    returns and leaves [r] in neither [data] nor [datat] of its shard;
    [GetAllOk(r)] then returns an empty map and [false]. When [r] had no
    table, in a state whose two tables agree on their keys (every reachable
    state does), [Clear(r)] leaves the whole state as it was. *)
Theorem Clear_removes (r : request) (w : world) :
  ∃ w', Clear r w = (Ret tt, w') ∧
    data (bag_of w' r) !! r = None ∧
    datat (bag_of w' r) !! r = None ∧
    (∃ l w'', GetAllOk r w' = (Ret (Some l, false), w'') ∧ heap w'' !! l = Some ∅) ∧
    (consistent w → unregistered w r → w' = w).
Proof.
  eexists. split; [apply Clear_eq|]. split; [|split; [|split]].
  - unfold bag_of; simpl. rewrite vlookup_insert; simpl. apply lookup_delete_eq.
  - unfold bag_of; simpl. rewrite vlookup_insert; simpl. apply lookup_delete_eq.
  - assert (unregistered (Clear r w).2 r) as Hr by apply table_of_Clear.
    rewrite Clear_eq in Hr; simpl in Hr.
    eexists _, _. split.
    + rewrite GetAllOk_eq, (unregistered_not_registered _ _ Hr). done.
    + simpl. rewrite (unregistered_attributes _ _ Hr). apply lookup_insert_eq.
  - intros Hc Hr. unfold unregistered, table_of in Hr.
    assert (datat (bag_of w r) !! r = None) as Ht.
    { apply eq_None_not_Some. intros Hs. apply (Hc (offset r) r) in Hs.
      unfold bag_of in Hr. rewrite Hr in Hs. by destruct Hs. }
    rewrite (delete_id _ _ Hr), (delete_id _ _ Ht), databag_eta.
    unfold bag_of. rewrite vlookup_insert_self. apply world_eta.
Qed.

(** C5. [Delete(r, k)] right after [Set(r, k, v)] makes [GetOk(r, k)] return
    [(nil, false)]. [Delete(r, k)] returns without a panic and leaves the
    state as it was when [r] has no table, and also when [r] has a table
    that does not hold [k] (in a state where the tables that [data] refers
    to exist, as they do in every state of a run). *)
Theorem Delete_removes (r : request) (k : iface K) (w : world) :
  (∀ v, ∃ w1 w2, Set_ r k v w = (Ret tt, w1) ∧ Delete r k w1 = (Ret tt, w2) ∧
     GetOk r k w2 = (Ret (Nil, false), w2)) ∧
  (unregistered w r → Delete r k w = (Ret tt, w)) ∧
  (allocated w → attributes w r !! k = None → Delete r k w = (Ret tt, w)).
Proof.
  split; [|split].
  - intros v. exists (Set_ r k v w).2, (Delete r k (Set_ r k v w).2).2.
    split; [|split].
    + rewrite <- (Set_returns r k v w). by destruct (Set_ r k v w).
    + rewrite <- (Delete_returns r k (Set_ r k v w).2). by destruct (Delete r k _).
    + rewrite GetOk_eq, attributes_Delete, lookup_delete_eq. done.
  - intros Hr. rewrite Delete_eq. unfold unregistered in Hr. by rewrite Hr.
  - intros Ha Hk. rewrite Delete_eq. unfold attributes in Hk.
    destruct (table_of w r) as [m|] eqn:E; simpl in *; [|done].
    destruct (Ha _ _ _ E) as (l & -> & [t Hl]). simpl in *.
    rewrite (lookup_total_correct _ _ _ Hl) in *.
    rewrite (delete_id _ _ Hk), (insert_id _ _ _ Hl). by rewrite world_eta.
Qed.

(** C9. [requestBag] reads and changes nothing: for a request [r] it
    returns, in every state, the shard whose index is the address of [r]
    modulo [numberOfBags], and [numberOfBags] is 128. *)
Theorem requestBag_deterministic (r : request) :
  numberOfBags = 128%nat ∧
  ∃ i : fin numberOfBags,
    N.of_nat (fin_to_nat i) = r mod 128 ∧
    ∀ w : world, requestBag r w = (Ret i, w).
Proof.
  split; [done|]. exists (offset r). split; [|done].
  unfold offset. rewrite fin_to_nat_to_fin. unfold numberOfBags. lia.
Qed.

(** C10. For a request that has no table, [GetAll] returns the nil map and
    leaves the state as it is, while [GetAllOk] returns [false] with a map
    that is not nil: a map object that did not exist before the call, and
    that is empty. *)
Theorem unregistered_GetAll_shapes (r : request) (w : world) :
  unregistered w r →
  GetAll r w = (Ret None, w) ∧
  ∃ l w', GetAllOk r w = (Ret (Some l, false), w') ∧
    heap w !! l = None ∧ heap w' !! l = Some ∅.
Proof.
  intros Hr. split.
  - rewrite GetAll_eq, (unregistered_not_registered _ _ Hr). done.
  - eexists _, _. split; [|split].
    + rewrite GetAllOk_eq, (unregistered_not_registered _ _ Hr). done.
    + apply fresh_unallocated.
    + simpl. rewrite (unregistered_attributes _ _ Hr). apply lookup_insert_eq.
Qed.

(** ** One call at a time *)

Lemma heap_grows_refl (w : world) : heap_grows w w.
Proof. by intros l. Qed.

Lemma heap_grows_insert (w : world) (bs : vec databag numberOfBags) (l : loc)
    (x : table) (t : Z) :
  heap_grows w (World bs (<[l := x]> (heap w)) t).
Proof. intros l' Hl'. simpl. apply lookup_insert_is_Some'. by right. Qed.

(** What a call does to [bags]: nothing, or what [Clear] does, or what the
    first [Set] of a request does; and the heap only grows. *)
Lemma step_shape (w : world) (c : call) :
  heap_grows w (step w c) ∧
  (bags (step w c) = bags w
   ∨ (∃ r, c = CallClear r ∧
        bags (step w c)
        = vinsert (offset r)
            (Databag (delete r (data (bag_of w r))) (delete r (datat (bag_of w r))))
            (bags w))
   ∨ (∃ r key val l, c = CallSet r key val ∧
        is_Some (heap (step w c) !! l) ∧
        bags (step w c)
        = vinsert (offset r)
            (Databag (<[r := Some l]> (data (bag_of w r)))
                     (<[r := now w]> (datat (bag_of w r))))
            (bags w))).
Proof.
  destruct c as [r key val|r key|r key|r|r|r key|r|t]; unfold step, exec.
  - rewrite Set_eq. destruct (default None (table_of w r)) as [l|]; simpl.
    + split; [apply heap_grows_insert|by left].
    + split; [apply heap_grows_insert|]. right; right.
      eexists r, key, val, _. split; [done|]. split; [|done].
      simpl. rewrite lookup_insert_eq. eauto.
  - unfold bind. rewrite Get_eq. simpl. split; [apply heap_grows_refl|by left].
  - unfold bind. rewrite GetOk_eq. simpl. split; [apply heap_grows_refl|by left].
  - unfold bind. rewrite GetAll_eq. destruct (bool_decide (registered w r)); simpl.
    + split; [apply heap_grows_insert|by left].
    + split; [apply heap_grows_refl|by left].
  - unfold bind. rewrite GetAllOk_eq. simpl.
    split; [apply heap_grows_insert|by left].
  - rewrite Delete_eq. destruct (default None (table_of w r)) as [l|]; simpl.
    + split; [apply heap_grows_insert|by left].
    + split; [apply heap_grows_refl|by left].
  - rewrite Clear_eq. simpl. split; [by intros l|]. right; left. by exists r.
  - simpl. split; [by intros l|by left].
Qed.

Lemma table_of_bags (w w' : world) (r : request) :
  bags w' = bags w → table_of w' r = table_of w r.
Proof. unfold table_of, bag_of. by intros ->. Qed.

Lemma offset_data_insert (w : world) (r r' : request) (x : databag) (bs : vec databag numberOfBags) :
  bs = vinsert (offset r') x (bags w) →
  data x !! r = data (bag_of w r') !! r →
  data (bs !!! offset r) !! r = data (bags w !!! offset r) !! r.
Proof.
  intros -> Hx. destruct (decide (offset r' = offset r)) as [Heq|Hne].
  - rewrite Heq in *. rewrite vlookup_insert. unfold bag_of in Hx. by rewrite Heq in Hx.
  - by rewrite vlookup_insert_ne.
Qed.

(** Only [Set(r, ...)] and [Clear(r)] change whether [r] has a table. *)
Lemma registered_step (w : world) (c : call) (r : request) :
  bool_decide (registered (step w c) r)
  = live_after r (bool_decide (registered w r)) c.
Proof.
  assert (∀ w', table_of w' r = table_of w r →
            bool_decide (registered w' r) = bool_decide (registered w r)) as Hsame.
  { intros w' Hw'. unfold registered. by rewrite Hw'. }
  assert (∀ r', r' ≠ r → table_of (step w (CallClear r')) r = table_of w r) as Hclear.
  { intros r' Hne. unfold step, exec. rewrite Clear_eq. unfold table_of, bag_of at 1. simpl.
    apply (offset_data_insert _ _ r' _ _ eq_refl). simpl.
    by rewrite lookup_delete_ne. }
  assert (∀ r' key val, r' ≠ r → table_of (step w (CallSet r' key val)) r = table_of w r) as Hset.
  { intros r' key val Hne.
    destruct (step_shape w (CallSet r' key val)) as [_ [Hb|[(r'' & ? & _)|(r'' & key' & val' & l & Hc & _ & Hb)]]].
    - by apply table_of_bags.
    - done.
    - injection Hc as <- <- <-. unfold table_of, bag_of at 1.
      apply (offset_data_insert _ _ r' _ _ Hb). simpl.
      by rewrite lookup_insert_ne. }
  assert (∀ c', (∀ r', c' ≠ CallClear r') → (∀ r' key val, c' ≠ CallSet r' key val) →
            bool_decide (registered (step w c') r) = bool_decide (registered w r)) as Hquiet.
  { intros c' Hnc Hns. apply Hsame.
    destruct (step_shape w c') as [_ [Hb|[(r' & Hc & _)|(r' & key & val & l & Hc & _)]]].
    - by apply table_of_bags.
    - by destruct (Hnc r').
    - by destruct (Hns r' key val). }
  destruct c as [r' key val|r' key|r' key|r'|r'|r' key|r'|t]; simpl;
    [| by apply Hquiet | by apply Hquiet | by apply Hquiet | by apply Hquiet
     | by apply Hquiet | | by apply Hquiet].
  - destruct (decide (r' = r)) as [->|Hne].
    + apply bool_decide_eq_true_2. unfold step, exec, registered.
      destruct (table_of_Set r key val w) as [l ->]. eauto.
    + by apply Hsame, Hset.
  - destruct (decide (r' = r)) as [->|Hne].
    + apply bool_decide_eq_false_2. unfold step, exec, registered.
      rewrite (table_of_Clear r w). by intros [? ?].
    + by apply Hsame, Hclear.
Qed.

Lemma run_snoc (cs : list call) (c : call) (w : world) :
  run (cs ++ [c]) w = step (run cs w) c.
Proof. unfold run. by rewrite foldl_app. Qed.

Lemma live_snoc (r : request) (cs : list call) (c : call) :
  live r (cs ++ [c]) = live_after r (live r cs) c.
Proof. unfold live. by rewrite foldl_app. Qed.

Lemma init_unregistered (t0 : Z) (r : request) : unregistered (init t0) r.
Proof.
  unfold unregistered, table_of, bag_of.
  change (bags (init t0)) with (vreplicate numberOfBags empty_bag).
  by rewrite vlookup_replicate.
Qed.

(** After a history from the initial state, [r] has a table exactly when
    the history leaves it one. *)
Lemma registered_run (t0 : Z) (cs : list call) (r : request) :
  bool_decide (registered (run cs (init t0)) r) = live r cs.
Proof.
  induction cs as [|c cs IH] using rev_ind.
  - apply unregistered_not_registered, init_unregistered.
  - by rewrite run_snoc, live_snoc, registered_step, IH.
Qed.

(** ** Invariants of the store *)

Lemma consistent_step (w : world) (c : call) :
  consistent w → consistent (step w c).
Proof.
  intros Hc i r0.
  destruct (step_shape w c) as [_ [Hb|[(r & _ & Hb)|(r & key & val & l & _ & _ & Hb)]]];
    rewrite Hb; [apply Hc| |];
    (destruct (decide (offset r = i)) as [<-|Hne];
      [rewrite vlookup_insert; simpl|by rewrite vlookup_insert_ne]).
  - rewrite !lookup_delete_is_Some. by rewrite (Hc (offset r) r0).
  - rewrite !lookup_insert_is_Some. by rewrite (Hc (offset r) r0).
Qed.

Lemma allocated_step (w : world) (c : call) :
  allocated w → allocated (step w c).
Proof.
  intros Ha i r0 m.
  destruct (step_shape w c) as [Hg [Hb|[(r & _ & Hb)|(r & key & val & l & _ & Hl & Hb)]]];
    rewrite Hb.
  - intros Hm. destruct (Ha _ _ _ Hm) as (l & -> & Hl). eauto.
  - destruct (decide (offset r = i)) as [<-|Hne].
    + rewrite vlookup_insert; simpl. intros [_ Hm]%lookup_delete_Some.
      destruct (Ha _ _ _ Hm) as (l & -> & Hl). eauto.
    + rewrite vlookup_insert_ne by done. intros Hm.
      destruct (Ha _ _ _ Hm) as (l & -> & Hl). eauto.
  - destruct (decide (offset r = i)) as [<-|Hne].
    + rewrite vlookup_insert; simpl. intros [[_ <-]|[_ Hm]]%lookup_insert_Some.
      * eauto.
      * destruct (Ha _ _ _ Hm) as (l' & -> & Hl'). eauto.
    + rewrite vlookup_insert_ne by done. intros Hm.
      destruct (Ha _ _ _ Hm) as (l' & -> & Hl'). eauto.
Qed.

Lemma init_wf (t0 : Z) : wf (init t0).
Proof.
  split.
  - intros i r. change (bags (init t0)) with (vreplicate numberOfBags empty_bag).
    rewrite vlookup_replicate. simpl. by rewrite !lookup_empty.
  - intros i r m. change (bags (init t0)) with (vreplicate numberOfBags empty_bag).
    rewrite vlookup_replicate. simpl. by rewrite lookup_empty.
Qed.

Lemma run_wf (cs : list call) (w : world) : wf w → wf (run cs w).
Proof.
  intros Hw. induction cs as [|c cs IH] using rev_ind; [done|].
  rewrite run_snoc. destruct IH as [Hc Ha].
  split; [by apply consistent_step|by apply allocated_step].
Qed.

(** Every state of a run is well formed. *)
Lemma reachable_wf (w : world) : reachable w → wf w.
Proof. intros (t0 & cs & ->). apply run_wf, init_wf. Qed.

(** A request that no [Set] was called on has no table. *)
Lemma never_set_unregistered (t0 : Z) (cs : list call) (r : request) :
  (∀ key val, CallSet r key val ∉ cs) → unregistered (run cs (init t0)) r.
Proof.
  intros Hns.
  assert (live r cs = false) as Hl.
  { induction cs as [|c cs IH] using rev_ind; [done|].
    rewrite live_snoc, IH.
    - destruct c as [r' key val| | | | | |r'|]; simpl; try done.
      + destruct (decide (r' = r)) as [->|]; [|done].
        destruct (Hns key val). apply elem_of_app. right. by apply list_elem_of_singleton.
      + by destruct (decide (r' = r)).
    - intros key val Hin. apply (Hns key val), elem_of_app. by left. }
  pose proof (registered_run t0 cs r) as Hr. rewrite Hl in Hr.
  apply bool_decide_eq_false_1 in Hr. unfold registered in Hr.
  by apply eq_None_not_Some.
Qed.

(** C6. After any history of calls from the initial state, in every shard a
    request is a key of [datat] if and only if it is a key of [data]. *)
Theorem tables_consistent (t0 : Z) (cs : list call) (i : fin numberOfBags) (r : request) :
  r ∈ dom (datat (bags (run cs (init t0)) !!! i))
  ↔ r ∈ dom (data (bags (run cs (init t0)) !!! i)).
Proof.
  rewrite !elem_of_dom.
  apply (run_wf cs (init t0) (init_wf t0)).
Qed.

(** ** Snapshots *)

Lemma mutate_all_eq (l : loc) (xs : list mutation) (w : world) (t0 : table) :
  heap w !! l = Some t0 →
  ∃ t1, mutate_all (Some l) xs w
        = (Ret tt, World (bags w) (<[l := t1]> (heap w)) (now w)).
Proof.
  revert w t0. induction xs as [|x xs IH]; intros w t0 Hl; simpl.
  - exists t0. unfold ret. by rewrite insert_id, world_eta.
  - unfold bind. destruct x as [key val|key]; simpl.
    + edestruct (IH (World (bags w) (<[l := <[key := val]> (heap w !!! l)]> (heap w)) (now w)))
        as [t1 Ht1]; [apply lookup_insert_eq|].
      rewrite Ht1. simpl. exists t1. by rewrite insert_insert_eq.
    + edestruct (IH (World (bags w) (<[l := delete key (heap w !!! l)]> (heap w)) (now w)))
        as [t1 Ht1]; [apply lookup_insert_eq|].
      rewrite Ht1. simpl. exists t1. by rewrite insert_insert_eq.
Qed.

(** Writing to a map object that no entry of [data] refers to changes the
    attributes of no request. *)
Lemma attributes_frame (w w' : world) (l : loc) (r : request) :
  allocated w → heap w !! l = None →
  bags w' = bags w → (∀ l', l' ≠ l → heap w' !! l' = heap w !! l') →
  attributes w' r = attributes w r.
Proof.
  intros Ha Hl Hb Hh. unfold attributes. rewrite (table_of_bags _ _ _ Hb).
  destruct (table_of w r) as [m|] eqn:E; simpl; [|done].
  destruct (Ha _ _ _ E) as (l' & -> & Hl'). simpl.
  rewrite !lookup_total_alt, Hh; [done|].
  intros ->. rewrite Hl in Hl'. by destruct Hl'.
Qed.

(** C7. In a state where the tables that [data] refers to exist, [GetAll] of
    a registered request returns a map object that did not exist before and
    that holds the request's attributes. Whatever the caller then assigns
    to or deletes from that map, every later [Get], for any request and
    key, returns what it returned before; and a later [Set], for any
    request, leaves the contents of the returned map as they were. *)
Theorem GetAll_snapshot (r : request) (w : world) :
  allocated w → registered w r →
  ∃ l w1, GetAll r w = (Ret (Some l), w1) ∧
    heap w !! l = None ∧
    heap w1 !! l = Some (attributes w r) ∧
    (∀ xs, ∃ w2, mutate_all (Some l) xs w1 = (Ret tt, w2) ∧
       ∀ r' k, (Get r' k w2).1 = (Get r' k w1).1 ∧ (Get r' k w1).1 = (Get r' k w).1) ∧
    (∀ r' k v3, contents (Some l) (Set_ r' k v3 w1).2 = contents (Some l) w1).
Proof.
  intros Ha Hr. set (l := fresh (dom (heap w))).
  assert (heap w !! l = None) as Hl by apply fresh_unallocated.
  set (w1 := World (bags w) (<[l := attributes w r]> (heap w)) (now w)).
  assert (∀ r', attributes w1 r' = attributes w r') as H1.
  { intros r'. apply (attributes_frame w w1 l); [done..|].
    intros l' Hne. simpl. by rewrite lookup_insert_ne. }
  exists l, w1. split; [|split; [|split; [|split]]].
  - rewrite GetAll_eq, bool_decide_eq_true_2 by done. done.
  - done.
  - simpl. apply lookup_insert_eq.
  - intros xs.
    destruct (mutate_all_eq l xs w1 (attributes w r)) as [t1 Ht1];
      [simpl; apply lookup_insert_eq|].
    eexists. split; [exact Ht1|]. intros r' k. rewrite !Get_eq. simpl.
    rewrite H1. split; [|done].
    rewrite (attributes_frame w _ l); [done..|].
    intros l' Hne. simpl. by rewrite !lookup_insert_ne.
  - intros r' k v3. rewrite Set_eq.
    destruct (default None (table_of w1 r')) as [l'|] eqn:E; simpl.
    + assert (l' ≠ l) as Hne.
      { intros ->. rewrite (table_of_bags w w1) in E by done.
        destruct (table_of w r') as [m|] eqn:E'; simpl in E; [|done]. subst m.
        destruct (Ha _ _ _ E') as (l'' & [= <-] & Hl''). rewrite Hl in Hl''. by destruct Hl''. }
      by rewrite lookup_total_insert_ne.
    + rewrite lookup_total_insert_ne; [done|].
      intros Heq. pose proof (is_fresh (dom (<[l := attributes w r]> (heap w)))) as Hf.
      rewrite Heq in Hf. apply Hf, elem_of_dom. rewrite lookup_insert_eq. eauto.
Qed.

(** * Further properties of the operations *)

(** ** The state after one call, field by field *)

Lemma bags_step (w : world) (c : call) :
  bags (step w c)
  = match c with
    | CallSet r _ _ =>
        match default None (table_of w r) with
        | Some _ => bags w
        | None =>
            vinsert (offset r)
              (Databag (<[r := Some (fresh (dom (heap w)))]> (data (bag_of w r)))
                       (<[r := now w]> (datat (bag_of w r))))
              (bags w)
        end
    | CallClear r =>
        vinsert (offset r)
          (Databag (delete r (data (bag_of w r))) (delete r (datat (bag_of w r))))
          (bags w)
    | _ => bags w
    end.
Proof.
  destruct c as [r key val|r key|r key|r|r|r key|r|t]; unfold step, exec.
  - rewrite Set_eq. by destruct (default None (table_of w r)).
  - unfold bind. by rewrite Get_eq.
  - unfold bind. by rewrite GetOk_eq.
  - unfold bind. rewrite GetAll_eq. by destruct (bool_decide (registered w r)).
  - unfold bind. by rewrite GetAllOk_eq.
  - rewrite Delete_eq. by destruct (default None (table_of w r)).
  - by rewrite Clear_eq.
  - done.
Qed.

Lemma heap_step (w : world) (c : call) :
  heap (step w c)
  = match c with
    | CallSet r key val =>
        match default None (table_of w r) with
        | Some l => <[l := <[key := val]> (heap w !!! l)]> (heap w)
        | None => <[fresh (dom (heap w)) := {[key := val]}]> (heap w)
        end
    | CallDelete r key =>
        match default None (table_of w r) with
        | Some l => <[l := delete key (heap w !!! l)]> (heap w)
        | None => heap w
        end
    | CallGetAll r =>
        if bool_decide (registered w r)
        then <[fresh (dom (heap w)) := attributes w r]> (heap w)
        else heap w
    | CallGetAllOk r => <[fresh (dom (heap w)) := attributes w r]> (heap w)
    | _ => heap w
    end.
Proof.
  destruct c as [r key val|r key|r key|r|r|r key|r|t]; unfold step, exec.
  - rewrite Set_eq. by destruct (default None (table_of w r)).
  - unfold bind. by rewrite Get_eq.
  - unfold bind. by rewrite GetOk_eq.
  - unfold bind. rewrite GetAll_eq. by destruct (bool_decide (registered w r)).
  - unfold bind. by rewrite GetAllOk_eq.
  - rewrite Delete_eq. by destruct (default None (table_of w r)).
  - by rewrite Clear_eq.
  - done.
Qed.

Lemma now_step (w : world) (c : call) :
  now (step w c) = match c with Tick t => t | _ => now w end.
Proof.
  destruct c as [r key val|r key|r key|r|r|r key|r|t]; unfold step, exec.
  - rewrite Set_eq. by destruct (default None (table_of w r)).
  - unfold bind. by rewrite Get_eq.
  - unfold bind. by rewrite GetOk_eq.
  - unfold bind. rewrite GetAll_eq. by destruct (bool_decide (registered w r)).
  - unfold bind. by rewrite GetAllOk_eq.
  - rewrite Delete_eq. by destruct (default None (table_of w r)).
  - by rewrite Clear_eq.
  - done.
Qed.

(** The entry of [r0] in [data] of shard [i] after one call. *)
Lemma entry_step (w : world) (c : call) (i : fin numberOfBags) (r0 : request) :
  data (bags (step w c) !!! i) !! r0
  = match c with
    | CallSet r _ _ =>
        if decide (i = offset r ∧ r0 = r)
        then match default None (table_of w r) with
             | Some l => Some (Some l)
             | None => Some (Some (fresh (dom (heap w))))
             end
        else data (bags w !!! i) !! r0
    | CallClear r =>
        if decide (i = offset r ∧ r0 = r) then None else data (bags w !!! i) !! r0
    | _ => data (bags w !!! i) !! r0
    end.
Proof.
  rewrite bags_step.
  destruct c as [r key val|r key|r key|r|r|r key|r|t]; try done.
  - unfold table_of, bag_of.
    destruct (data (bags w !!! offset r) !! r) as [[l|]|] eqn:E; simpl;
      case_decide as Hd.
    + destruct Hd as [-> ->]. done.
    + done.
    + destruct Hd as [-> ->]. rewrite vlookup_insert; simpl. by rewrite lookup_insert_eq.
    + destruct (decide (offset r = i)) as [<-|Hne].
      * rewrite vlookup_insert; simpl. rewrite lookup_insert_ne; [done|].
        intros ->. by apply Hd.
      * by rewrite vlookup_insert_ne.
    + destruct Hd as [-> ->]. rewrite vlookup_insert; simpl. by rewrite lookup_insert_eq.
    + destruct (decide (offset r = i)) as [<-|Hne].
      * rewrite vlookup_insert; simpl. rewrite lookup_insert_ne; [done|].
        intros ->. by apply Hd.
      * by rewrite vlookup_insert_ne.
  - case_decide as Hd.
    + destruct Hd as [-> ->]. rewrite vlookup_insert; simpl. by rewrite lookup_delete_eq.
    + destruct (decide (offset r = i)) as [<-|Hne].
      * rewrite vlookup_insert; simpl. rewrite lookup_delete_ne; [done|].
        intros ->. by apply Hd.
      * by rewrite vlookup_insert_ne.
Qed.

(** The entry of [r0] in [datat] of shard [i] after one call. *)
Lemma stamp_entry_step (w : world) (c : call) (i : fin numberOfBags) (r0 : request) :
  datat (bags (step w c) !!! i) !! r0
  = match c with
    | CallSet r _ _ =>
        if decide (i = offset r ∧ r0 = r)
        then match default None (table_of w r) with
             | Some l => datat (bags w !!! i) !! r0
             | None => Some (now w)
             end
        else datat (bags w !!! i) !! r0
    | CallClear r =>
        if decide (i = offset r ∧ r0 = r) then None else datat (bags w !!! i) !! r0
    | _ => datat (bags w !!! i) !! r0
    end.
Proof.
  rewrite bags_step.
  destruct c as [r key val|r key|r key|r|r|r key|r|t]; try done.
  - destruct (default None (table_of w r)) as [l|] eqn:E; simpl;
      case_decide as Hd; try done.
    + destruct Hd as [-> ->]. rewrite vlookup_insert; simpl. by rewrite lookup_insert_eq.
    + destruct (decide (offset r = i)) as [<-|Hne].
      * rewrite vlookup_insert; simpl. rewrite lookup_insert_ne; [done|].
        intros ->. by apply Hd.
      * by rewrite vlookup_insert_ne.
  - case_decide as Hd.
    + destruct Hd as [-> ->]. rewrite vlookup_insert; simpl. by rewrite lookup_delete_eq.
    + destruct (decide (offset r = i)) as [<-|Hne].
      * rewrite vlookup_insert; simpl. rewrite lookup_delete_ne; [done|].
        intros ->. by apply Hd.
      * by rewrite vlookup_insert_ne.
Qed.

(** ** More invariants of the store *)

Lemma default_table (w : world) (r : request) (l : loc) :
  default None (table_of w r) = Some l →
  data (bags w !!! offset r) !! r = Some (Some l).
Proof.
  unfold table_of, bag_of.
  destruct (data (bags w !!! offset r) !! r) as [[l'|]|]; simpl; intros E; by simplify_eq.
Qed.

Lemma fresh_ne (w : world) (l : loc) :
  is_Some (heap w !! l) → fresh (dom (heap w)) ≠ l.
Proof. intros Hl <-. rewrite fresh_unallocated in Hl. by destruct Hl. Qed.

Lemma allocated_fresh (w : world) (i : fin numberOfBags) (r : request) :
  allocated w → data (bags w !!! i) !! r ≠ Some (Some (fresh (dom (heap w)))).
Proof.
  intros Ha E. destruct (Ha _ _ _ E) as (l & [= <-] & Hl).
  by apply (fresh_ne w _ Hl).
Qed.

Lemma homed_step (w : world) (c : call) : homed w → homed (step w c).
Proof.
  intros Hh i r0. rewrite entry_step.
  destruct c as [r key val|r key|r key|r|r|r key|r|t]; try apply Hh.
  - case_decide as Hd; [|apply Hh]. by destruct Hd as [-> ->].
  - case_decide as Hd; [|apply Hh]. by destruct Hd as [-> ->].
Qed.

Lemma separated_step (w : world) (c : call) :
  allocated w → separated w → separated (step w c).
Proof.
  intros Ha Hs i i' r0 r0' l. rewrite !entry_step.
  destruct c as [r key val|r key|r key|r|r|r key|r|t]; try apply Hs.
  - assert (∀ j q, ¬ (j = offset r ∧ q = r) →
              match default None (table_of w r) with
              | Some l0 => Some (Some l0)
              | None => Some (Some (fresh (dom (heap w))))
              end = Some (Some l) →
              data (bags w !!! j) !! q = Some (Some l) → False) as Hclash.
    { intros j q Hd Hnew Hold.
      destruct (default None (table_of w r)) as [l0|] eqn:E.
      - injection Hnew as ->. apply default_table in E.
        destruct (Hs _ _ _ _ _ E Hold) as [Hj Hq]. by apply Hd.
      - injection Hnew as <-. by apply (allocated_fresh w j q Ha). }
    repeat case_decide.
    + intros _ _. by destruct H0 as [-> ->], H1 as [-> ->].
    + intros Hnew Hold. destruct (Hclash _ _ H1 Hnew Hold).
    + intros Hold Hnew. destruct (Hclash _ _ H0 Hnew Hold).
    + apply Hs.
  - repeat case_decide; try done. apply Hs.
Qed.

Lemma unreferenced_step (w : world) (c : call) (l : loc) :
  is_Some (heap w !! l) → unreferenced w l → unreferenced (step w c) l.
Proof.
  intros Hl Hu i r0. rewrite entry_step.
  destruct c as [r key val|r key|r key|r|r|r key|r|t]; try apply Hu.
  - case_decide as Hd; [|apply Hu].
    destruct (default None (table_of w r)) as [l0|] eqn:E.
    + intros [= ->]. apply default_table in E. by apply (Hu _ _ E).
    + intros [= Hf]. by apply (fresh_ne w l Hl).
  - case_decide as Hd; [done|apply Hu].
Qed.

(** A call writes only to map objects that [data] refers to and to objects
    it has just made. *)
Lemma heap_other_step (w : world) (c : call) (l : loc) :
  is_Some (heap w !! l) → unreferenced w l →
  heap (step w c) !! l = heap w !! l.
Proof.
  intros Hl Hu. rewrite heap_step.
  pose proof (fresh_ne w l Hl) as Hf.
  destruct c as [r key val|r key|r key|r|r|r key|r|t]; try done.
  - destruct (default None (table_of w r)) as [l0|] eqn:E.
    + apply default_table in E. rewrite lookup_insert_ne; [done|].
      intros ->. by apply (Hu _ _ E).
    + by rewrite lookup_insert_ne.
  - case_bool_decide; [|done]. by rewrite lookup_insert_ne.
  - by rewrite lookup_insert_ne.
  - destruct (default None (table_of w r)) as [l0|] eqn:E; [|done].
    apply default_table in E. rewrite lookup_insert_ne; [done|].
    intros ->. by apply (Hu _ _ E).
Qed.

Lemma init_entries (t0 : Z) (i : fin numberOfBags) (r : request) :
  data (bags (init t0 : world) !!! i) !! r = None.
Proof.
  change (bags (init t0)) with (vreplicate numberOfBags empty_bag).
  by rewrite vlookup_replicate.
Qed.

Lemma run_allocated (cs : list call) (w : world) :
  allocated w → allocated (run cs w).
Proof.
  intros Ha. induction cs as [|c cs IH] using rev_ind; [done|].
  rewrite run_snoc. by apply allocated_step.
Qed.

Lemma run_separated (cs : list call) (w : world) :
  allocated w → separated w → separated (run cs w).
Proof.
  intros Ha Hs. induction cs as [|c cs IH] using rev_ind; [done|].
  rewrite run_snoc. apply separated_step; [by apply run_allocated|done].
Qed.

Lemma run_homed (cs : list call) (w : world) : homed w → homed (run cs w).
Proof.
  intros Hh. induction cs as [|c cs IH] using rev_ind; [done|].
  rewrite run_snoc. by apply homed_step.
Qed.

(** In every state of a run, no two requests share a map object. *)
Lemma reachable_separated (w : world) : reachable w → separated w.
Proof.
  intros (t0 & cs & ->). apply run_separated; [apply init_wf|].
  intros i i' r r' l Hl. by rewrite init_entries in Hl.
Qed.

(** ** Tables and their entries *)

(** A call that is not made to write [r] leaves the attributes of [r]. *)
Lemma attributes_other_step (w : world) (c : call) (r : request) :
  allocated w → separated w → written c ≠ Some r →
  attributes (step w c) r = attributes w r.
Proof.
  intros Ha Hs Hw.
  assert (table_of (step w c) r = table_of w r) as Ht.
  { unfold table_of, bag_of. rewrite entry_step.
    destruct c as [r' key val|r' key|r' key|r'|r'|r' key|r'|t]; try done;
      (case_decide as Hd; [|done]); destruct Hd as [_ ->]; by destruct Hw. }
  unfold attributes. rewrite Ht.
  destruct (table_of w r) as [[l|]|] eqn:E; simpl; try done.
  assert (is_Some (heap w !! l)) as Hl.
  { destruct (Ha _ _ _ E) as (l' & [= <-] & Hl'). done. }
  pose proof (fresh_ne w l Hl) as Hf.
  assert (∀ r' l0, written c = Some r' → default None (table_of w r') = Some l0 → l0 ≠ l)
    as Hother.
  { intros r' l0 Hc E0 ->. apply default_table in E0.
    destruct (Hs _ _ _ _ _ E0 E) as [_ ->]. by apply Hw. }
  rewrite !lookup_total_alt, heap_step. f_equal.
  destruct c as [r' key val|r' key|r' key|r'|r'|r' key|r'|t]; try done.
  - destruct (default None (table_of w r')) as [l0|] eqn:E0.
    + rewrite lookup_insert_ne; [done|]. by apply (Hother r').
    + by rewrite lookup_insert_ne.
  - case_bool_decide; [|done]. by rewrite lookup_insert_ne.
  - by rewrite lookup_insert_ne.
  - destruct (default None (table_of w r')) as [l0|] eqn:E0; [|done].
    rewrite lookup_insert_ne; [done|]. by apply (Hother r').
Qed.

Lemma deleted_after_live (r : request) (cs : list call) :
  (foldl (deleted_after r) (false, false) cs).1 = live r cs.
Proof.
  induction cs as [|c cs IH] using rev_ind; [done|].
  rewrite live_snoc, foldl_app, <- IH. simpl.
  destruct c as [r' key val|r' key|r' key|r'|r'|r' key|r'|t]; simpl; try done;
    by destruct (decide (r' = r)).
Qed.

Lemma deleted_from_snoc (r : request) (cs : list call) (c : call) :
  deleted_from r (cs ++ [c])
  = (deleted_after r (live r cs, deleted_from r cs) c).2.
Proof.
  unfold deleted_from. rewrite foldl_app. simpl.
  rewrite <- deleted_after_live. by destruct (foldl (deleted_after r) (false, false) cs).
Qed.

(** A history without a [Delete] of [r] has run none on its table. *)
Lemma no_Delete_deleted_from (r : request) (cs : list call) :
  (∀ key, CallDelete r key ∉ cs) → deleted_from r cs = false.
Proof.
  intros Hnd. induction cs as [|c cs IH] using rev_ind; [done|].
  rewrite deleted_from_snoc, IH.
  - destruct c as [r' key val|r' key|r' key|r'|r'|r' key|r'|t]; simpl; try done.
    + by destruct (decide (r' = r)).
    + destruct (decide (r' = r)) as [->|]; [|done].
      destruct (Hnd key). apply elem_of_app. right. by apply list_elem_of_singleton.
    + by destruct (decide (r' = r)).
  - intros key Hin. apply (Hnd key), elem_of_app. by left.
Qed.

(** A table that no [Delete] has run on has an entry. *)
Lemma attributes_nonempty_run (t0 : Z) (cs : list call) (r : request) :
  live r cs = true → deleted_from r cs = false →
  attributes (run cs (init t0)) r ≠ ∅.
Proof.
  induction cs as [|c cs IH] using rev_ind; [done|].
  rewrite live_snoc, deleted_from_snoc, run_snoc.
  assert (allocated (run cs (init t0))) as Ha by apply run_allocated, init_wf.
  assert (separated (run cs (init t0))) as Hs.
  { apply reachable_separated. by exists t0, cs. }
  assert (written c ≠ Some r → live r cs = true → deleted_from r cs = false
          → attributes (step (run cs (init t0)) c) r ≠ ∅) as Hquiet.
  { intros Hw Hl Hd. rewrite attributes_other_step by done. by apply IH. }
  destruct c as [r' key val|r' key|r' key|r'|r'|r' key|r'|t]; simpl;
    try (by apply Hquiet).
  - destruct (decide (r' = r)) as [->|Hne]; simpl.
    + intros _ _. change (step ?w (CallSet r key val)) with (Set_ r key val w).2.
      rewrite attributes_Set. apply insert_non_empty.
    + apply Hquiet. simpl. congruence.
  - destruct (decide (r' = r)) as [->|Hne]; simpl.
    + intros ->. done.
    + apply Hquiet. simpl. congruence.
  - destruct (decide (r' = r)) as [->|Hne]; simpl.
    + done.
    + apply Hquiet. simpl. congruence.
Qed.

(** C4, as the code has it. After any history of calls from the initial
    state, [GetAllOk(r)] returns [true] exactly when some [Set(r, ...)] of
    the history has no [Clear(r)] after it, and the table of a registered
    request has at least one entry unless a [Delete] of that request has
    run since the table was made: [Delete] takes entries out of a table and
    leaves the table in place, and nothing else empties one. *)
Theorem table_nonempty_until_Delete (t0 : Z) (cs : list call) (r : request) :
  ∃ l w' m, GetAllOk r (run cs (init t0)) = (Ret (Some l, live r cs), w') ∧
    heap w' !! l = Some m ∧
    (live r cs = true → deleted_from r cs = false → m ≠ ∅).
Proof.
  eexists _, _, (attributes (run cs (init t0)) r). split; [|split].
  - rewrite GetAllOk_eq, registered_run. done.
  - apply lookup_insert_eq.
  - apply attributes_nonempty_run.
Qed.

(** ** Requests do not interfere *)

(** X1. In a state of a run, a call that is not a [Set], [Delete] or [Clear]
    of [r] itself leaves [r] as it was: the same entry in [data], the same
    creation time in [datat], the same attributes. This holds for requests
    in one shard as for requests in different shards. *)
Theorem only_own_writes (w : world) (c : call) (r : request) :
  allocated w → separated w → written c ≠ Some r →
  table_of (step w c) r = table_of w r ∧
  datat (bag_of (step w c) r) !! r = datat (bag_of w r) !! r ∧
  attributes (step w c) r = attributes w r.
Proof.
  intros Ha Hs Hw.
  assert (table_of (step w c) r = table_of w r) as Ht.
  { unfold table_of, bag_of. rewrite entry_step.
    destruct c as [r' key val|r' key|r' key|r'|r'|r' key|r'|t]; try done;
      (case_decide as Hd; [|done]); destruct Hd as [_ ->]; by destruct Hw. }
  split; [done|]. split.
  - unfold bag_of. rewrite stamp_entry_step.
    destruct c as [r' key val|r' key|r' key|r'|r'|r' key|r'|t]; try done;
      (case_decide as Hd; [|done]); destruct Hd as [_ ->]; by destruct Hw.
  - unfold attributes. rewrite Ht.
    destruct (table_of w r) as [[l|]|] eqn:E; simpl; try done.
    assert (is_Some (heap w !! l)) as Hl.
    { destruct (Ha _ _ _ E) as (l' & [= <-] & Hl'). done. }
    pose proof (fresh_ne w l Hl) as Hf.
    assert (∀ r' l0, written c = Some r' → default None (table_of w r') = Some l0 → l0 ≠ l)
      as Hother.
    { intros r' l0 Hc E0 ->. apply default_table in E0.
      destruct (Hs _ _ _ _ _ E0 E) as [_ ->]. by apply Hw. }
    rewrite !lookup_total_alt, heap_step. f_equal.
    destruct c as [r' key val|r' key|r' key|r'|r'|r' key|r'|t]; try done.
    + destruct (default None (table_of w r')) as [l0|] eqn:E0.
      * rewrite lookup_insert_ne; [done|]. by apply (Hother r').
      * by rewrite lookup_insert_ne.
    + case_bool_decide; [|done]. by rewrite lookup_insert_ne.
    + by rewrite lookup_insert_ne.
    + destruct (default None (table_of w r')) as [l0|] eqn:E0; [|done].
      rewrite lookup_insert_ne; [done|]. by apply (Hother r').
Qed.

(** X2. After any history of calls from the initial state, an entry for a
    request, in [data] or in [datat], is only ever found in the shard that
    [requestBag] gives for that request. *)
Theorem entries_in_own_shard (t0 : Z) (cs : list call) (i : fin numberOfBags) (r : request) :
  r ∈ dom (data (bags (run cs (init t0)) !!! i))
  ∨ r ∈ dom (datat (bags (run cs (init t0)) !!! i)) →
  i = offset r.
Proof.
  rewrite !elem_of_dom. intros Hin.
  assert (homed (run cs (init t0))) as Hh.
  { apply run_homed. intros j q Hq. rewrite init_entries in Hq. by destruct Hq. }
  apply Hh. destruct Hin as [Hin|Hin]; [done|].
  by apply (run_wf cs (init t0) (init_wf t0)).
Qed.

(** X3. A map that [GetAll] has returned keeps the contents it was returned
    with through every later history of calls, for whatever requests and
    keys: no operation of the store writes to it. *)
Theorem snapshot_survives (r : request) (w : world) (cs : list call) :
  allocated w → registered w r →
  ∃ l w1, GetAll r w = (Ret (Some l), w1) ∧
    heap (run cs w1) !! l = Some (attributes w r).
Proof.
  intros Ha Hr. set (l := fresh (dom (heap w))).
  set (w1 := World (bags w) (<[l := attributes w r]> (heap w)) (now w)).
  exists l, w1. split.
  { rewrite GetAll_eq, bool_decide_eq_true_2 by done. done. }
  assert (allocated w1) as Ha1.
  { intros i q m Hm. destruct (Ha _ _ _ Hm) as (l' & -> & Hl').
    exists l'. split; [done|]. simpl. apply lookup_insert_is_Some'. by right. }
  assert (unreferenced w1 l) as Hu1.
  { intros i q. apply (allocated_fresh w i q Ha). }
  assert (heap w1 !! l = Some (attributes w r)) as Hh1 by apply lookup_insert_eq.
  assert (unreferenced (run cs w1) l ∧ heap (run cs w1) !! l = Some (attributes w r))
    as [_ Hgoal]; [|done].
  induction cs as [|c cs [IHu IHh]] using rev_ind; [done|].
  rewrite run_snoc. split.
  - apply unreferenced_step; [by rewrite IHh|done].
  - rewrite heap_other_step; [done|by rewrite IHh|done].
Qed.

(** ** Creation times *)

Lemma stamp_snoc (r : request) (t0 : Z) (cs : list call) (c : call) :
  stamp r t0 (cs ++ [c]) = stamp_after r (stamp r t0 cs) c.
Proof. unfold stamp. by rewrite foldl_app. Qed.

(** X4. After any history of calls from the initial state, [datat] holds for
    a request the reading the clock had at the [Set] that made its present
    table: a later [Set] of the request does not renew it, [Clear] drops
    it, and a [Set] after that [Clear] records the time anew. *)
Theorem datat_records_creation (t0 : Z) (cs : list call) (r : request) :
  now (run cs (init t0)) = (stamp r t0 cs).1 ∧
  datat (bag_of (run cs (init t0)) r) !! r = (stamp r t0 cs).2.
Proof.
  induction cs as [|c cs [IHn IHd]] using rev_ind.
  - split; [done|]. unfold bag_of.
    change (bags (run [] (init t0))) with (vreplicate numberOfBags empty_bag).
    by rewrite vlookup_replicate.
  - rewrite run_snoc, stamp_snoc.
    destruct (run_wf cs (init t0) (init_wf t0)) as [Hc Ha].
    set (w := run cs (init t0)) in *.
    unfold bag_of in *. rewrite now_step, stamp_entry_step.
    destruct c as [r' key val|r' key|r' key|r'|r'|r' key|r'|t]; simpl; try done.
    + destruct (decide (r' = r)) as [->|Hne].
      * rewrite decide_True by done. simpl. split; [done|].
        unfold table_of, bag_of.
        destruct (data (bags w !!! offset r) !! r) as [[l|]|] eqn:E; simpl.
        -- assert (is_Some (datat (bags w !!! offset r) !! r)) as [t Ht].
           { apply Hc. rewrite E. eauto. }
           rewrite <- IHd, Ht. done.
        -- destruct (Ha _ _ _ E) as (l & [=] & _).
        -- assert (datat (bags w !!! offset r) !! r = None) as Ht.
           { apply eq_None_not_Some. intros Hs%Hc. rewrite E in Hs. by destruct Hs. }
           rewrite <- IHd, Ht, IHn. done.
      * rewrite decide_False; [done|]. intros [_ ?]. by apply Hne.
    + destruct (decide (r' = r)) as [->|Hne].
      * rewrite decide_True by done. done.
      * rewrite decide_False; [done|]. intros [_ ?]. by apply Hne.
Qed.

(** ** How the operations compose *)

(** The state after two [Set]s of one request. *)
Lemma Set_Set (r : request) (k1 k2 : iface K) (v1 v2 : iface V) (w : world) :
  (Set_ r k2 v2 (Set_ r k1 v1 w).2).2
  = match default None (table_of w r) with
    | Some l =>
        World (bags w)
          (<[l := <[k2 := v2]> (<[k1 := v1]> (heap w !!! l))]> (heap w)) (now w)
    | None =>
        World (vinsert (offset r)
                 (Databag (<[r := Some (fresh (dom (heap w)))]> (data (bag_of w r)))
                          (<[r := now w]> (datat (bag_of w r))))
                 (bags w))
              (<[fresh (dom (heap w)) := <[k2 := v2]> {[k1 := v1]}]> (heap w)) (now w)
    end.
Proof.
  rewrite (Set_eq r k1 v1 w).
  destruct (default None (table_of w r)) as [l|] eqn:E; simpl.
  - rewrite Set_eq. rewrite (table_of_bags w) by done. rewrite E. simpl.
    by rewrite lookup_total_insert_eq, insert_insert_eq.
  - rewrite Set_eq. unfold table_of at 1, bag_of at 1. simpl.
    rewrite vlookup_insert. simpl. rewrite lookup_insert_eq. simpl.
    by rewrite lookup_total_insert_eq, insert_insert_eq.
Qed.

(** X5. [Set(r, k, v)] twice in a row leaves exactly the state that one
    [Set(r, k, v)] leaves: the second call makes no new table and keeps
    the creation time. *)
Theorem Set_idempotent (r : request) (k : iface K) (v : iface V) (w : world) :
  Set_ r k v (Set_ r k v w).2 = (Ret tt, (Set_ r k v w).2).
Proof.
  rewrite <- (Set_returns r k v (Set_ r k v w).2) at 1.
  rewrite (surjective_pairing (Set_ r k v (Set_ r k v w).2)) at 1. f_equal.
  rewrite Set_Set, Set_eq.
  destruct (default None (table_of w r)) as [l|]; simpl.
  - by rewrite insert_insert_eq.
  - by rewrite <- insert_empty, insert_insert_eq.
Qed.

(** X6. Two [Set]s of one request on different keys leave the same state in
    either order. *)
Theorem Set_commute (r : request) (k1 k2 : iface K) (v1 v2 : iface V) (w : world) :
  k1 ≠ k2 →
  (Set_ r k2 v2 (Set_ r k1 v1 w).2).2 = (Set_ r k1 v1 (Set_ r k2 v2 w).2).2.
Proof.
  intros Hne. rewrite !Set_Set.
  destruct (default None (table_of w r)) as [l|]; simpl.
  - by rewrite (insert_insert_ne _ k1 k2).
  - f_equal. f_equal. rewrite <- !insert_empty. by rewrite (insert_insert_ne _ k1 k2).
Qed.

(** X7. [Set(r, k, v)] leaves what is read under every other key of [r] as
    it was. *)
Theorem Set_other_keys (r : request) (k k' : iface K) (v : iface V) (w : world) :
  k' ≠ k →
  (GetOk r k' (Set_ r k v w).2).1 = (GetOk r k' w).1 ∧
  (Get r k' (Set_ r k v w).2).1 = (Get r k' w).1.
Proof.
  intros Hne. rewrite !GetOk_eq, !Get_eq, attributes_Set. simpl.
  by rewrite lookup_insert_ne.
Qed.

(** X8. [Delete(r, k)] leaves what is read under every other key of [r] as
    it was, and changes neither [data] nor [datat] of any shard: the
    request stays registered with the creation time it had. *)
Theorem Delete_other_keys (r : request) (k k' : iface K) (w : world) :
  k' ≠ k →
  (GetOk r k' (Delete r k w).2).1 = (GetOk r k' w).1 ∧
  (Get r k' (Delete r k w).2).1 = (Get r k' w).1 ∧
  bags (Delete r k w).2 = bags w.
Proof.
  intros Hne. rewrite !GetOk_eq, !Get_eq, attributes_Delete. simpl.
  rewrite lookup_delete_ne by done. split; [done|]. split; [done|].
  rewrite Delete_eq. by destruct (default None (table_of w r)).
Qed.

(** X9. [Clear(r)] twice in a row leaves exactly the state that one
    [Clear(r)] leaves, in any state. *)
Theorem Clear_idempotent (r : request) (w : world) :
  Clear r (Clear r w).2 = (Ret tt, (Clear r w).2).
Proof.
  rewrite (Clear_eq r (Clear r w).2). f_equal.
  rewrite Clear_eq. unfold bag_of. simpl. rewrite vlookup_insert. simpl.
  by rewrite !delete_delete_eq, vinsert_vinsert.
Qed.

(** X10. A [Set] of a request that was just cleared starts a new table: it
    holds the one key set and nothing of what the request stored before,
    and the creation time is the present reading of the clock. *)
Theorem Set_after_Clear (r : request) (k : iface K) (v : iface V) (w : world) :
  attributes (Set_ r k v (Clear r w).2).2 r = {[k := v]} ∧
  datat (bag_of (Set_ r k v (Clear r w).2).2 r) !! r = Some (now w).
Proof.
  pose proof (table_of_Clear r w) as Hu. split.
  - by rewrite attributes_Set, (unregistered_attributes _ _ Hu), insert_empty.
  - unfold bag_of.
    change (Set_ r k v (Clear r w).2).2 with (step (Clear r w).2 (CallSet r k v)).
    rewrite stamp_entry_step, decide_True by done.
    unfold unregistered in Hu. rewrite Hu, Clear_eq. done.
Qed.

(** ** Reads *)

(** X11. [Get] returns the value that [GetOk] returns, and that value is nil
    whenever [GetOk] reports the key as absent; both leave the state as it
    is. *)
Theorem Get_is_GetOk_value (r : request) (k : iface K) (w : world) :
  ∃ v ok, GetOk r k w = (Ret (v, ok), w) ∧ Get r k w = (Ret v, w) ∧
    (ok = true ∨ v = Nil).
Proof.
  rewrite GetOk_eq, Get_eq.
  destruct (attributes w r !! k) as [v|]; simpl.
  - exists v, true. eauto.
  - exists Nil, false. eauto.
Qed.

(** X12. The map that [GetAllOk] returns agrees with [GetOk] on every key:
    a key bound in it is one that [GetOk] finds, with the same value, and
    a key missing from it is one that [GetOk] reports absent. *)
Theorem GetAllOk_agrees_with_GetOk (r : request) (w : world) :
  ∃ l ok w' m, GetAllOk r w = (Ret (Some l, ok), w') ∧
    heap w' !! l = Some m ∧
    ∀ k, GetOk r k w
         = (Ret match m !! k with Some v => (v, true) | None => (Nil, false) end, w).
Proof.
  eexists _, _, _, (attributes w r). split; [apply GetAllOk_eq|]. split.
  - simpl. apply lookup_insert_eq.
  - intros k. apply GetOk_eq.
Qed.

(** X13. [GetAll] and [GetAllOk] agree: when [GetAllOk] reports the request
    as registered, [GetAll] returns the same map and leaves the same
    state; when it does not, [GetAll] returns nil and makes no map. *)
Theorem GetAll_is_GetAllOk (r : request) (w : world) :
  ∃ m ok w', GetAllOk r w = (Ret (m, ok), w') ∧
    GetAll r w = if ok then (Ret m, w') else (Ret None, w).
Proof.
  eexists _, _, _. split; [apply GetAllOk_eq|]. apply GetAll_eq.
Qed.

(** X14. The four reads change nothing that is stored: [Get] and [GetOk]
    leave the state as it is, and [GetAll] and [GetAllOk] leave every shard
    and the clock as they are and every map object of the heap in place,
    adding only the map they return. *)
Theorem reads_change_nothing (r : request) (k : iface K) (w : world) :
  (Get r k w).2 = w ∧ (GetOk r k w).2 = w ∧
  (bags (GetAll r w).2 = bags w ∧ heap w ⊆ heap (GetAll r w).2
     ∧ now (GetAll r w).2 = now w) ∧
  (bags (GetAllOk r w).2 = bags w ∧ heap w ⊆ heap (GetAllOk r w).2
     ∧ now (GetAllOk r w).2 = now w).
Proof.
  rewrite Get_eq, GetOk_eq, GetAll_eq, GetAllOk_eq.
  split; [done|]. split; [done|]. split.
  - case_bool_decide; simpl; [|done].
    split; [done|]. split; [|done]. apply insert_subseteq, fresh_unallocated.
  - simpl. split; [done|]. split; [|done]. apply insert_subseteq, fresh_unallocated.
Qed.

(** ** The handler wrapper, further *)

(** X16. Wrapping a handler twice is the same as wrapping it once: the same
    outcome and the same final state. *)
Theorem ClearHandler_nested (h : Handler) (rw : ResponseWriter) (r : request) (w : world) :
  ServeHTTP (ClearHandler (ClearHandler h)) rw r w
  = ServeHTTP (ClearHandler h) rw r w.
Proof.
  unfold ServeHTTP, ClearHandler, defer, ServeHTTP.
  destruct (h rw r w) as [res wh].
  rewrite (Clear_eq r wh). rewrite Clear_eq. f_equal.
  unfold bag_of. simpl. rewrite vlookup_insert. simpl.
  by rewrite !delete_delete_eq, vinsert_vinsert.
Qed.

(** X17. The wrapped handler clears its own request only: every other
    request keeps the entry, the creation time and the attributes that the
    inner handler left it with, and no map object is touched. *)
Theorem ClearHandler_keeps_others (h : Handler) (rw : ResponseWriter)
    (r r' : request) (w : world) :
  r' ≠ r →
  ∃ res wh w', ServeHTTP h rw r w = (res, wh) ∧
    ServeHTTP (ClearHandler h) rw r w = (res, w') ∧
    table_of w' r' = table_of wh r' ∧
    datat (bag_of w' r') !! r' = datat (bag_of wh r') !! r' ∧
    attributes w' r' = attributes wh r' ∧
    heap w' = heap wh.
Proof.
  intros Hne. destruct (ServeHTTP h rw r w) as [res wh] eqn:Eh.
  exists res, wh, (step wh (CallClear r)). split; [done|].
  assert (table_of (step wh (CallClear r)) r' = table_of wh r') as Ht.
  { unfold table_of, bag_of. rewrite entry_step, decide_False; [done|].
    by intros [_ ?]. }
  split; [|split; [done|split; [|split]]].
  - unfold ServeHTTP at 1, ClearHandler, defer. rewrite Eh.
    unfold step, exec. by rewrite Clear_eq.
  - unfold bag_of. rewrite stamp_entry_step, decide_False; [done|]. by intros [_ ?].
  - unfold attributes. rewrite Ht. unfold contents. by rewrite heap_step.
  - by rewrite heap_step.
Qed.

End Store.

(** * The store with its locks and with keys of any type

    The first part of the file follows the calls that are made with a
    hashable key on a shard whose lock is free: there every call takes the
    lock, does its work and releases the lock. This part adds what that
    leaves out: the state of each shard's [sync.RWMutex], and keys whose
    dynamic type cannot be hashed (a slice, a map, a function), on which a
    map operation panics. No operation of the source releases its lock by
    [defer], so a panic between [Lock] and [Unlock] leaves the lock held.

    The runs are those of one goroutine: a lock that is found held is held
    by a call that panicked, and is not released any more. *)

Ltac plain_unfold :=
  unfold Set_, Get, GetOk, GetAll, GetAllOk, Delete, Clear, clear,
    requestBag, data_index, data_lookup, data_assign, datat_assign,
    data_delete, datat_delete, load_bag, store_bag, time_Now_Unix,
    make_map, map_index, map_lookup, map_assign, map_delete, map_entries,
    bind, ret, panic.

Module Sync.

(** An [interface{}] that is passed as a key. *)
Inductive key (K : Type) : Type :=
  | Hashable (k : iface K)
  | Unhashable.
Arguments Hashable {K} k.
Arguments Unhashable {K}.

(** A [sync.RWMutex]: free, held by readers ([others] of them besides one),
    or held by a writer. *)
Inductive rwmutex : Type :=
  | Unlocked
  | ReadLocked (others : nat)
  | WriteLocked.

(** How a call ends: it returns, it panics, it waits for a lock for ever, or
    the runtime stops the program. *)
Inductive result (A : Type) : Type :=
  | Done (a : A)
  | Panicked (msg : string)
  | Blocked
  | Fatal (msg : string).
Arguments Done {A} a.
Arguments Panicked {A} msg.
Arguments Blocked {A}.
Arguments Fatal {A} msg.

(** The call has come to an end, so that deferred calls run. *)
Definition finished {A} (res : result A) : bool :=
  match res with
  | Done _ | Panicked _ => true
  | Blocked | Fatal _ => false
  end.

(** The operations of the first part, under names that stay in reach. *)
Local Abbreviation plain_init := init.
Local Abbreviation plain_Set := Set_.
Local Abbreviation plain_Get := Get.
Local Abbreviation plain_GetOk := GetOk.
Local Abbreviation plain_GetAll := GetAll.
Local Abbreviation plain_GetAllOk := GetAllOk.
Local Abbreviation plain_Delete := Delete.
Local Abbreviation plain_clear := clear.
Local Abbreviation plain_Clear := Clear.
Local Abbreviation plain_requestBag := requestBag.

Section Sync.
Context {K V : Type} `{Countable K} {ResponseWriter : Type}.

Local Abbreviation M := (M (K := K) (V := V)).

(** The program state: the store, and the mutex of every shard. *)
Record state := State {
  store : world (K := K) (V := V);
  mutexes : vec rwmutex numberOfBags
}.

Definition L (A : Type) : Type := state → result A * state.

Definition ret {A} (a : A) : L A := λ s, (Done a, s).

Definition bind {A B} (m : L A) (k : A → L B) : L B :=
  λ s, match m s with
       | (Done a, s') => k a s'
       | (Panicked msg, s') => (Panicked msg, s')
       | (Blocked, s') => (Blocked, s')
       | (Fatal msg, s') => (Fatal msg, s')
       end.

(** [defer d; m]: [d] runs when [m] has returned or panicked, and the
    outcome of [m] stands unless [d] does not return. *)
Definition defer {A} (d : L unit) (m : L A) : L A :=
  λ s, match m s with
       | (res, s') =>
           if finished res
           then match d s' with
                | (Done _, s'') => (res, s'')
                | (Panicked msg, s'') => (Panicked msg, s'')
                | (Blocked, s'') => (Blocked, s'')
                | (Fatal msg, s'') => (Fatal msg, s'')
                end
           else (res, s')
       end.

Notation "x <~ m ; k" := (bind m (λ x, k))
  (at level 20, m at level 100, k at level 200, only parsing).
Notation "' p <~ m ; k" := (bind m (λ x, let 'p := x in k))
  (at level 20, p pattern, m at level 100, k at level 200, only parsing).
Notation "m ;; k" := (bind m (λ _, k))
  (at level 100, k at level 200, only parsing, right associativity).

(** A statement of the first part, run on the store. *)
Definition lift {A} (m : M A) : L A :=
  λ s, match m (store s) with
       | (Ret a, w) => (Done a, State w (mutexes s))
       | (Panic msg, w) => (Panicked msg, State w (mutexes s))
       end.

(** [func init()]; the zero value of a [sync.RWMutex] is an unlocked one. *)
Definition init (t : Z) : state :=
  State (plain_init t) (vreplicate numberOfBags Unlocked).

(** [b.mutex.Lock()] *)
Definition mutex_Lock (b : fin numberOfBags) : L unit :=
  λ s, match mutexes s !!! b with
       | Unlocked => (Done tt, State (store s) (vinsert b WriteLocked (mutexes s)))
       | _ => (Blocked, s)
       end.

(** [b.mutex.Unlock()] *)
Definition mutex_Unlock (b : fin numberOfBags) : L unit :=
  λ s, match mutexes s !!! b with
       | WriteLocked => (Done tt, State (store s) (vinsert b Unlocked (mutexes s)))
       | _ => (Fatal "sync: Unlock of unlocked RWMutex", s)
       end.

(** [b.mutex.RLock()] *)
Definition mutex_RLock (b : fin numberOfBags) : L unit :=
  λ s, match mutexes s !!! b with
       | Unlocked => (Done tt, State (store s) (vinsert b (ReadLocked 0) (mutexes s)))
       | ReadLocked n => (Done tt, State (store s) (vinsert b (ReadLocked (S n)) (mutexes s)))
       | WriteLocked => (Blocked, s)
       end.

(** [b.mutex.RUnlock()] *)
Definition mutex_RUnlock (b : fin numberOfBags) : L unit :=
  λ s, match mutexes s !!! b with
       | ReadLocked 0 => (Done tt, State (store s) (vinsert b Unlocked (mutexes s)))
       | ReadLocked (S n) => (Done tt, State (store s) (vinsert b (ReadLocked n) (mutexes s)))
       | _ => (Fatal "sync: RUnlock of unlocked RWMutex", s)
       end.

(** The panic of a map operation on a key that cannot be hashed. An
    assignment, an index expression and [delete] all hash their key, on an
    empty map too. *)
Definition hash_panic : string := "runtime error: hash of unhashable type".

(** [m[key]] *)
Definition key_index (m : mapref) (key : key K) : L (iface V) :=
  match key with
  | Hashable k => lift (map_index m k)
  | Unhashable => λ s, (Panicked hash_panic, s)
  end.

(** [value, ok := m[key]] *)
Definition key_lookup (m : mapref) (key : key K) : L (iface V * bool) :=
  match key with
  | Hashable k => lift (map_lookup m k)
  | Unhashable => λ s, (Panicked hash_panic, s)
  end.

(** [m[key] = val]; the nil map is found before the key is hashed. *)
Definition key_assign (m : mapref) (key : key K) (val : iface V) : L unit :=
  match key with
  | Hashable k => lift (map_assign m k val)
  | Unhashable =>
      match m with
      | None => λ s, (Panicked "assignment to entry in nil map", s)
      | Some _ => λ s, (Panicked hash_panic, s)
      end
  end.

(** [delete(m, key)] *)
Definition key_delete (m : mapref) (key : key K) : L unit :=
  match key with
  | Hashable k => lift (map_delete m k)
  | Unhashable => λ s, (Panicked hash_panic, s)
  end.

(** [func requestBag(r *http.Request) *databag] *)
Definition requestBag (r : request) : L (fin numberOfBags) :=
  lift (plain_requestBag r).

(** [func Set(r *http.Request, key, val interface{})] *)
Definition Set_ (r : request) (key : key K) (val : iface V) : L unit :=
  b <~ requestBag r ;
  mutex_Lock b ;;
  ctx <~ lift (data_index b r) ;
  (if decide (ctx = None)
   then m <~ lift make_map ;
        lift (data_assign b r m) ;;
        t <~ lift time_Now_Unix ;
        lift (datat_assign b r t)
   else ret tt) ;;
  ctx <~ lift (data_index b r) ;
  key_assign ctx key val ;;
  mutex_Unlock b.

(** [func Get(r *http.Request, key interface{}) interface{}] *)
Definition Get (r : request) (key : key K) : L (iface V) :=
  b <~ requestBag r ;
  mutex_RLock b ;;
  ctx <~ lift (data_index b r) ;
  if decide (ctx ≠ None)
  then value <~ key_index ctx key ;
       mutex_RUnlock b ;;
       ret value
  else mutex_RUnlock b ;;
       ret Nil.

(** [func GetOk(r *http.Request, key interface{}) (interface{}, bool)] *)
Definition GetOk (r : request) (key : key K) : L (iface V * bool) :=
  b <~ requestBag r ;
  mutex_RLock b ;;
  '(_, ok) <~ lift (data_lookup b r) ;
  if ok
  then ctx <~ lift (data_index b r) ;
       '(value, ok) <~ key_lookup ctx key ;
       mutex_RUnlock b ;;
       ret (value, ok)
  else mutex_RUnlock b ;;
       ret (Nil, false).

(** [func GetAll(r *http.Request) map[interface{}]interface{}] *)
Definition GetAll (r : request) : L mapref :=
  b <~ requestBag r ;
  mutex_RLock b ;;
  '(context, ok) <~ lift (data_lookup b r) ;
  if ok
  then result <~ lift make_map ;
       kvs <~ lift (map_entries context) ;
       lift (copy_entries result kvs) ;;
       mutex_RUnlock b ;;
       ret result
  else mutex_RUnlock b ;;
       ret None.

(** [func GetAllOk(r *http.Request) (map[interface{}]interface{}, bool)] *)
Definition GetAllOk (r : request) : L (mapref * bool) :=
  b <~ requestBag r ;
  mutex_RLock b ;;
  '(context, ok) <~ lift (data_lookup b r) ;
  result <~ lift make_map ;
  kvs <~ lift (map_entries context) ;
  lift (copy_entries result kvs) ;;
  mutex_RUnlock b ;;
  ret (result, ok).

(** [func Delete(r *http.Request, key interface{})] *)
Definition Delete (r : request) (key : key K) : L unit :=
  b <~ requestBag r ;
  mutex_Lock b ;;
  ctx <~ lift (data_index b r) ;
  (if decide (ctx ≠ None)
   then ctx <~ lift (data_index b r) ; key_delete ctx key
   else ret tt) ;;
  mutex_Unlock b.

(** [func clear(r *http.Request)]: Clear without the lock. *)
Definition clear (r : request) : L unit :=
  lift (plain_clear r).

(** [func Clear(r *http.Request)] *)
Definition Clear (r : request) : L unit :=
  b <~ requestBag r ;
  mutex_Lock b ;;
  clear r ;;
  mutex_Unlock b.

(** [http.Handler], given by its method [ServeHTTP(w, r)]. *)
Definition Handler : Type := ResponseWriter → request → L unit.

Definition ServeHTTP (h : Handler) (rw : ResponseWriter) (r : request) : L unit :=
  h rw r.

(** [func ClearHandler(h http.Handler) http.Handler]:
    [defer Clear(r); h.ServeHTTP(w, r)]. *)
Definition ClearHandler (h : Handler) : Handler :=
  λ rw r, defer (Clear r) (ServeHTTP h rw r).

(** A call of the API. *)
Inductive call : Type :=
  | CallSet (r : request) (key : key K) (val : iface V)
  | CallGet (r : request) (key : key K)
  | CallGetOk (r : request) (key : key K)
  | CallGetAll (r : request)
  | CallGetAllOk (r : request)
  | CallDelete (r : request) (key : key K)
  | CallClear (r : request).

Definition exec (c : call) : L unit :=
  match c with
  | CallSet r key val => Set_ r key val
  | CallGet r key => Get r key ;; ret tt
  | CallGetOk r key => GetOk r key ;; ret tt
  | CallGetAll r => GetAll r ;; ret tt
  | CallGetAllOk r => GetAllOk r ;; ret tt
  | CallDelete r key => Delete r key
  | CallClear r => Clear r
  end.

(** The request a call is about. *)
Definition subject (c : call) : request :=
  match c with
  | CallSet r _ _ | CallGet r _ | CallGetOk r _ | CallGetAll r
  | CallGetAllOk r | CallDelete r _ | CallClear r => r
  end.

(** Whether a call, made on the store [w], comes to a map operation with a
    key that cannot be hashed: [Set] always does, [Get] and [Delete] when
    [b.data[r]] is not nil, [GetOk] when [r] is a key of [b.data]. *)
Definition hashes_unhashable (w : world (K := K) (V := V)) (c : call) : bool :=
  match c with
  | CallSet _ Unhashable _ => true
  | CallGet r Unhashable => bool_decide (default None (table_of w r) ≠ None)
  | CallDelete r Unhashable => bool_decide (default None (table_of w r) ≠ None)
  | CallGetOk r Unhashable => bool_decide (registered w r)
  | _ => false
  end.

(** ** With the lock free and a key that can be hashed *)

Ltac sync_unfold :=
  unfold Set_, Get, GetOk, GetAll, GetAllOk, Delete, Clear, clear, requestBag,
    key_assign, key_index, key_lookup, key_delete,
    mutex_Lock, mutex_Unlock, mutex_RLock, mutex_RUnlock, bind, ret, lift.

Lemma relock (ms : vec rwmutex numberOfBags) (i : fin numberOfBags) (x : rwmutex) :
  ms !!! i = Unlocked → vinsert i Unlocked (vinsert i x ms) = ms.
Proof. intros Hm. rewrite vinsert_vinsert, <- Hm. apply vlookup_insert_self. Qed.

Lemma state_eta (s : state) : State (store s) (mutexes s) = s.
Proof. by destruct s. Qed.

(** Each call is then the call of the first part, made on the store, and
    all locks are as they were. *)
Lemma Set_hashable (r : request) (k : iface K) (v : iface V) (s : state) :
  mutexes s !!! offset r = Unlocked →
  Set_ r (Hashable k) v s = lift (plain_Set r k v) s.
Proof.
  intros Hm. sync_unfold. plain_unfold. simpl. rewrite Hm. simpl.
  destruct (data (bags (store s) !!! offset r) !! r) as [[l|]|] eqn:E; simpl;
    rewrite ?E, ?vlookup_insert; simpl; rewrite ?lookup_insert_eq; simpl;
    rewrite ?vlookup_insert; by rewrite relock.
Qed.

Lemma Get_hashable (r : request) (k : iface K) (s : state) :
  mutexes s !!! offset r = Unlocked →
  Get r (Hashable k) s = lift (plain_Get r k) s.
Proof.
  intros Hm. sync_unfold. plain_unfold. simpl. rewrite Hm. simpl.
  destruct (data (bags (store s) !!! offset r) !! r) as [[l|]|] eqn:E; simpl;
    rewrite ?vlookup_insert; simpl; rewrite relock by done; by rewrite state_eta.
Qed.

Lemma GetOk_hashable (r : request) (k : iface K) (s : state) :
  mutexes s !!! offset r = Unlocked →
  GetOk r (Hashable k) s = lift (plain_GetOk r k) s.
Proof.
  intros Hm. sync_unfold. plain_unfold. simpl. rewrite Hm. simpl.
  destruct (data (bags (store s) !!! offset r) !! r) as [[l|]|] eqn:E; simpl;
    rewrite ?E; simpl.
  - destruct ((heap (store s) !!! l) !! k); simpl;
      rewrite vlookup_insert; simpl; rewrite relock by done; by rewrite state_eta.
  - rewrite lookup_empty; simpl.
    rewrite vlookup_insert; simpl; rewrite relock by done; by rewrite state_eta.
  - rewrite vlookup_insert; simpl; rewrite relock by done; by rewrite state_eta.
Qed.

Lemma Delete_hashable (r : request) (k : iface K) (s : state) :
  mutexes s !!! offset r = Unlocked →
  Delete r (Hashable k) s = lift (plain_Delete r k) s.
Proof.
  intros Hm. sync_unfold. plain_unfold. simpl. rewrite Hm. simpl.
  destruct (data (bags (store s) !!! offset r) !! r) as [[l|]|] eqn:E; simpl;
    rewrite ?E; simpl;
    rewrite ?vlookup_insert; simpl; rewrite relock by done; by rewrite ?state_eta.
Qed.

Lemma Clear_plain (r : request) (s : state) :
  mutexes s !!! offset r = Unlocked →
  Clear r s = lift (plain_Clear r) s.
Proof.
  intros Hm. sync_unfold. plain_unfold. simpl. rewrite Hm. simpl.
  rewrite ?vlookup_insert; simpl. by rewrite relock.
Qed.

Lemma GetAllOk_plain (r : request) (s : state) :
  mutexes s !!! offset r = Unlocked →
  GetAllOk r s = lift (plain_GetAllOk r) s.
Proof.
  intros Hm. sync_unfold. plain_unfold. simpl. rewrite Hm. simpl.
  destruct (data (bags (store s) !!! offset r) !! r) as [m|] eqn:E; simpl.
  - rewrite (copy_entries_eq _ _ _ ∅) by (simpl; apply lookup_insert_eq). simpl.
    rewrite vlookup_insert; simpl. by rewrite relock.
  - rewrite map_to_list_empty. simpl.
    rewrite vlookup_insert; simpl. by rewrite relock.
Qed.

Lemma GetAll_plain (r : request) (s : state) :
  mutexes s !!! offset r = Unlocked →
  GetAll r s = lift (plain_GetAll r) s.
Proof.
  intros Hm. sync_unfold. plain_unfold. simpl. rewrite Hm. simpl.
  destruct (data (bags (store s) !!! offset r) !! r) as [m|] eqn:E; simpl.
  - rewrite (copy_entries_eq _ _ _ ∅) by (simpl; apply lookup_insert_eq). simpl.
    rewrite vlookup_insert; simpl. by rewrite relock.
  - rewrite vlookup_insert; simpl. rewrite relock by done. by rewrite state_eta.
Qed.

Lemma lift_returns {A} (m : M A) (a : A) (w : world) (s : state) :
  m (store s) = (Ret a, w) → lift m s = (Done a, State w (mutexes s)).
Proof. unfold lift. by intros ->. Qed.

(** ** With a key that cannot be hashed, or with the lock held *)

Lemma Set_unhashable (r : request) (v : iface V) (s : state) :
  mutexes s !!! offset r = Unlocked →
  ∃ w, Set_ r Unhashable v s
       = (Panicked hash_panic, State w (vinsert (offset r) WriteLocked (mutexes s)))
       ∧ registered w r.
Proof.
  intros Hm. sync_unfold. plain_unfold. simpl. rewrite Hm. simpl.
  unfold registered, table_of, bag_of.
  destruct (data (bags (store s) !!! offset r) !! r) as [[l|]|] eqn:E; simpl;
    rewrite ?E, ?vlookup_insert; simpl; rewrite ?lookup_insert_eq; simpl;
    rewrite ?vlookup_insert; simpl; (eexists; split; [done|]); simpl;
    rewrite ?E, ?vlookup_insert; simpl; rewrite ?lookup_insert_eq; eauto.
Qed.

Lemma Get_unhashable (r : request) (s : state) :
  mutexes s !!! offset r = Unlocked →
  Get r Unhashable s
  = if bool_decide (default None (table_of (store s) r) ≠ None)
    then (Panicked hash_panic,
          State (store s) (vinsert (offset r) (ReadLocked 0) (mutexes s)))
    else (Done Nil, s).
Proof.
  intros Hm. sync_unfold. plain_unfold. simpl. rewrite Hm. simpl.
  unfold table_of, bag_of.
  destruct (data (bags (store s) !!! offset r) !! r) as [[l|]|] eqn:E; simpl;
    rewrite ?vlookup_insert; simpl; rewrite ?relock by done; by rewrite ?state_eta.
Qed.

Lemma GetOk_unhashable (r : request) (s : state) :
  mutexes s !!! offset r = Unlocked →
  GetOk r Unhashable s
  = if bool_decide (registered (store s) r)
    then (Panicked hash_panic,
          State (store s) (vinsert (offset r) (ReadLocked 0) (mutexes s)))
    else (Done (Nil, false), s).
Proof.
  intros Hm. sync_unfold. plain_unfold. simpl. rewrite Hm. simpl.
  unfold registered, table_of, bag_of.
  destruct (data (bags (store s) !!! offset r) !! r) as [m|] eqn:E; simpl;
    rewrite ?vlookup_insert; simpl; rewrite ?relock by done; by rewrite ?state_eta.
Qed.

Lemma Delete_unhashable (r : request) (s : state) :
  mutexes s !!! offset r = Unlocked →
  Delete r Unhashable s
  = if bool_decide (default None (table_of (store s) r) ≠ None)
    then (Panicked hash_panic,
          State (store s) (vinsert (offset r) WriteLocked (mutexes s)))
    else (Done tt, s).
Proof.
  intros Hm. sync_unfold. plain_unfold. simpl. rewrite Hm. simpl.
  unfold table_of, bag_of.
  destruct (data (bags (store s) !!! offset r) !! r) as [[l|]|] eqn:E; simpl;
    rewrite ?E; simpl;
    rewrite ?vlookup_insert; simpl; rewrite ?relock by done; by rewrite ?state_eta.
Qed.


Lemma Clear_returns (r : request) (s : state) :
  mutexes s !!! offset r = Unlocked →
  Clear r s = (Done tt, State (plain_Clear r (store s)).2 (mutexes s)).
Proof.
  intros Hm. rewrite Clear_plain by done. apply lift_returns. by rewrite Clear_eq.
Qed.

(** ** The handler wrapper and the lock *)


(** ** When a call panics *)

(** X15. From a state in which the lock of the request's shard is free, a
    call of the API returns, with every lock as it was, unless it comes to
    a map operation with a key that cannot be hashed; then it panics and
    leaves the lock of the shard held. [Set] comes to one with every such
    key, [Get] and [Delete] when the request has a table, [GetOk] when the
    request is registered; [GetAll], [GetAllOk] and [Clear] never do. *)
Theorem calls_panic_only_hashing (c : call) (s : state) :
  mutexes s !!! offset (subject c) = Unlocked →
  ∃ s', if hashes_unhashable (store s) c
        then exec c s = (Panicked hash_panic, s')
             ∧ mutexes s' !!! offset (subject c) ≠ Unlocked
        else exec c s = (Done tt, s') ∧ mutexes s' = mutexes s.
Proof.
  intros Hm.
  destruct c as [r [k|] v|r [k|]|r [k|]|r|r|r [k|]|r]; simpl in *.
  - eexists. split.
    + rewrite Set_hashable by done.
      apply lift_returns. rewrite <- (Set_returns r k v (store s)).
      apply surjective_pairing.
    + done.
  - destruct (Set_unhashable r v s Hm) as (w & -> & _).
    eexists. split; [done|]. simpl. by rewrite vlookup_insert.
  - eexists. unfold bind. rewrite Get_hashable by done.
    erewrite lift_returns by apply Get_eq. done.
  - unfold bind. rewrite Get_unhashable by done. case_bool_decide.
    + eexists. split; [done|]. simpl. by rewrite vlookup_insert.
    + eexists. done.
  - eexists. unfold bind. rewrite GetOk_hashable by done.
    erewrite lift_returns by apply GetOk_eq. done.
  - unfold bind. rewrite GetOk_unhashable by done. case_bool_decide.
    + eexists. split; [done|]. simpl. by rewrite vlookup_insert.
    + eexists. done.
  - unfold bind. rewrite GetAll_plain by done. unfold lift.
    rewrite GetAll_eq. case_bool_decide; eexists; done.
  - eexists. unfold bind. rewrite GetAllOk_plain by done.
    erewrite lift_returns by apply GetAllOk_eq. done.
  - eexists. split.
    + rewrite Delete_hashable by done.
      apply lift_returns. rewrite <- (Delete_returns r k (store s)).
      apply surjective_pairing.
    + done.
  - rewrite Delete_unhashable by done. case_bool_decide.
    + eexists. split; [done|]. simpl. by rewrite vlookup_insert.
    + eexists. done.
  - eexists. split; [by apply Clear_returns|done].
Qed.

End Sync.
End Sync.

(** * The store at work: string attributes *)

(** The scenario of a request that stores two attributes, reads them back
    and is cleared. *)
Example user_role_scenario :
  let r : request := 4096 in
  let w0 : world := init 1700000000 in
  let w1 := (Set_ r (Dyn "user") (Dyn "alice") w0).2 in
  let w2 := (Set_ r (Dyn "role") (Dyn "admin") w1).2 in
  let '(all, w3) := GetAll r w2 in
  let w4 := (Clear r w3).2 in
  let '(after, w5) := GetAllOk r w4 in
  match all, after with
  | Ret m, Ret (m', ok) =>
      contents m w3 = {[ Dyn "user" := Dyn "alice"; Dyn "role" := Dyn "admin" ]}
      ∧ datat (bag_of w2 r) !! r = Some 1700000000%Z
      ∧ contents m' w5 = ∅ ∧ ok = false
  | _, _ => False
  end.
Proof. vm_compute. done. Qed.

(** A handler that stores an attribute and then panics: the wrapped handler
    panics with the same value, and the request is left without a table. *)
Example panicking_handler_is_cleared :
  let h : Handler (ResponseWriter := unit) :=
    λ _ r, bind (Set_ r (Dyn "user") (Dyn "alice")) (λ _, panic "boom") in
  let w0 : world := init 0 in
  let '(res, w1) := ServeHTTP h tt 7 w0 in
  let '(res', w2) := ServeHTTP (ClearHandler h) tt 7 w0 in
  res = Panic "boom" ∧ registered w1 7
  ∧ res' = Panic "boom" ∧ unregistered w2 7
  ∧ (GetAllOk 7 w2).1 = Ret (Some 2%positive, false).
Proof.
  vm_compute. split; [done|]. split; [by eexists|]. done.
Qed.

(** C2 at the initial state. *)
Lemma unregistered_reads_witness :
  unregistered (init 0 : world (K := string) (V := string)) 7
  ∧ (∃ l w', GetAllOk 7 (init 0 : world (K := string) (V := string)) = (Ret (Some l, false), w')
       ∧ heap w' !! l = Some ∅)
  ∧ ∀ k, GetOk 7 k (init 0 : world (K := string) (V := string)) = (Ret (Nil, false), init 0)
       ∧ Get 7 k (init 0 : world (K := string) (V := string)) = (Ret Nil, init 0).
Proof.
  split; [reflexivity|].
  apply (unregistered_reads 7 (init 0)). reflexivity.
Defined.

(** C3 at the initial state: clearing a request that has no table. *)
Lemma Clear_removes_witness :
  consistent (init 0 : world (K := string) (V := string))
  ∧ unregistered (init 0 : world (K := string) (V := string)) 7
  ∧ Clear 7 (init 0 : world (K := string) (V := string)) = (Ret tt, init 0).
Proof.
  assert (consistent (init 0 : world (K := string) (V := string))) as Hc by apply init_wf.
  assert (unregistered (init 0 : world (K := string) (V := string)) 7) as Hr by reflexivity.
  split; [exact Hc|]. split; [exact Hr|].
  destruct (Clear_removes 7 (init 0 : world (K := string) (V := string))) as (w' & Hclear & _ & _ & _ & Hw).
  rewrite Hclear. f_equal. apply Hw; assumption.
Defined.

(** C5 after one [Set]: deleting a key that the table does not hold. *)
Lemma Delete_removes_witness :
  let w : world := run [CallSet 7 (Dyn "user") (Dyn "alice")] (init 0) in
  allocated w
  ∧ attributes w 7 !! Dyn "role" = None
  ∧ Delete 7 (Dyn "role") w = (Ret tt, w).
Proof.
  intros w.
  assert (allocated w) as Ha.
  { apply reachable_wf. exists 0%Z, [CallSet 7 (Dyn "user") (Dyn "alice")]. reflexivity. }
  assert (attributes w 7 !! Dyn "role" = None) as Hk by (vm_compute; reflexivity).
  split; [exact Ha|]. split; [exact Hk|].
  destruct (Delete_removes 7 (Dyn "role") w) as (_ & _ & Hd).
  apply Hd; assumption.
Defined.

(** C4 as stated fails: after [Set(r, k, v)] and [Delete(r, k)] the request
    is registered and its table is empty. *)
Lemma Delete_leaves_empty_table :
  let w : world := run [CallSet 7 (Dyn "k") (Dyn "v"); CallDelete 7 (Dyn "k")] (init 0) in
  ¬ (reachable w →
     ∀ l w', GetAllOk 7 w = (Ret (Some l, true), w') → heap w' !! l ≠ Some ∅).
Proof.
  intros w Hclaim.
  refine (Hclaim _ 2%positive (GetAllOk 7 w).2 _ _).
  - exists 0%Z, [CallSet 7 (Dyn "k") (Dyn "v"); CallDelete 7 (Dyn "k")]. reflexivity.
  - vm_compute. reflexivity.
  - vm_compute. reflexivity.
Qed.

(** C7 after one [Set]. *)
Lemma GetAll_snapshot_witness :
  let w : world := run [CallSet 7 (Dyn "user") (Dyn "alice")] (init 0) in
  allocated w ∧ registered w 7
  ∧ ∃ l w1, GetAll 7 w = (Ret (Some l), w1) ∧
      heap w !! l = None ∧
      heap w1 !! l = Some (attributes w 7) ∧
      (∀ xs, ∃ w2, mutate_all (Some l) xs w1 = (Ret tt, w2) ∧
         ∀ r' k, (Get r' k w2).1 = (Get r' k w1).1 ∧ (Get r' k w1).1 = (Get r' k w).1) ∧
      (∀ r' k v3, contents (Some l) (Set_ r' k v3 w1).2 = contents (Some l) w1).
Proof.
  intros w.
  assert (allocated w) as Ha.
  { apply reachable_wf. exists 0%Z, [CallSet 7 (Dyn "user") (Dyn "alice")]. reflexivity. }
  assert (registered w 7) as Hr by (exists (Some 1%positive); vm_compute; reflexivity).
  split; [exact Ha|]. split; [exact Hr|].
  apply (GetAll_snapshot 7 w Ha Hr).
Defined.

(** C10 at the initial state. *)
Lemma unregistered_GetAll_shapes_witness :
  unregistered (init 0 : world (K := string) (V := string)) 7
  ∧ GetAll 7 (init 0 : world (K := string) (V := string)) = (Ret None, init 0)
  ∧ ∃ l w', GetAllOk 7 (init 0 : world (K := string) (V := string)) = (Ret (Some l, false), w') ∧
      heap (init 0 : world (K := string) (V := string)) !! l = None ∧ heap w' !! l = Some ∅.
Proof.
  split; [reflexivity|].
  apply (unregistered_GetAll_shapes 7 (init 0)). reflexivity.
Defined.

(** X1 for two requests of one shard: the addresses 7 and 135 are equal
    modulo 128, and a [Delete] of one leaves the other as it was. *)
Lemma only_own_writes_witness :
  let w : world :=
    run [CallSet 7 (Dyn "user") (Dyn "alice"); CallSet 135 (Dyn "user") (Dyn "bob")] (init 0) in
  let c := CallDelete 135 (Dyn "user") in
  offset 7 = offset 135
  ∧ allocated w ∧ separated w ∧ written c ≠ Some 7
  ∧ table_of (step w c) 7 = table_of w 7
  ∧ datat (bag_of (step w c) 7) !! 7 = datat (bag_of w 7) !! 7
  ∧ attributes (step w c) 7 = attributes w 7.
Proof.
  intros w c.
  assert (reachable w) as Hw.
  { exists 0%Z, [CallSet 7 (Dyn "user") (Dyn "alice"); CallSet 135 (Dyn "user") (Dyn "bob")].
    reflexivity. }
  assert (allocated w) as Ha by apply (reachable_wf w Hw).
  assert (separated w) as Hs by apply (reachable_separated w Hw).
  assert (written c ≠ Some 7) as Hc by discriminate.
  split; [vm_compute; reflexivity|].
  split; [exact Ha|]. split; [exact Hs|]. split; [exact Hc|].
  apply (only_own_writes w c 7 Ha Hs Hc).
Defined.

(** X2 after one [Set]. *)
Lemma entries_in_own_shard_witness :
  let cs : list (call (K := string) (V := string)) :=
    [CallSet 135 (Dyn "user") (Dyn "alice")] in
  let i : fin numberOfBags := offset 7 in
  (135 ∈ dom (data (bags (run cs (init 0)) !!! i))
   ∨ 135 ∈ dom (datat (bags (run cs (init 0)) !!! i)))
  ∧ i = offset 135.
Proof.
  intros cs i.
  assert (135 ∈ dom (data (bags (run cs (init 0)) !!! i))
          ∨ 135 ∈ dom (datat (bags (run cs (init 0)) !!! i))) as Hin.
  { left. apply elem_of_dom. exists (Some 1%positive). vm_compute. reflexivity. }
  split; [exact Hin|].
  apply (entries_in_own_shard 0 cs i 135 Hin).
Defined.

(** X3: a snapshot taken before the request is changed and cleared. *)
Lemma snapshot_survives_witness :
  let w : world := run [CallSet 7 (Dyn "user") (Dyn "alice")] (init 0) in
  let cs := [CallSet 7 (Dyn "user") (Dyn "bob"); CallDelete 7 (Dyn "user"); CallClear 7] in
  allocated w ∧ registered w 7
  ∧ ∃ l w1, GetAll 7 w = (Ret (Some l), w1) ∧
      heap (run cs w1) !! l = Some (attributes w 7).
Proof.
  intros w cs.
  assert (allocated w) as Ha.
  { apply reachable_wf. exists 0%Z, [CallSet 7 (Dyn "user") (Dyn "alice")]. reflexivity. }
  assert (registered w 7) as Hr by (exists (Some 1%positive); vm_compute; reflexivity).
  split; [exact Ha|]. split; [exact Hr|].
  apply (snapshot_survives 7 w cs Ha Hr).
Defined.

(** X6 at the initial state. *)
Lemma Set_commute_witness :
  let w : world := init 0 in
  Dyn "user" ≠ Dyn "role" (dyn := string)
  ∧ (Set_ 7 (Dyn "role") (Dyn "admin") (Set_ 7 (Dyn "user") (Dyn "alice") w).2).2
    = (Set_ 7 (Dyn "user") (Dyn "alice") (Set_ 7 (Dyn "role") (Dyn "admin") w).2).2.
Proof.
  intros w.
  assert (Dyn "user" ≠ Dyn "role" (dyn := string)) as Hne by discriminate.
  split; [exact Hne|].
  apply (Set_commute 7 (Dyn "user") (Dyn "role") (Dyn "alice") (Dyn "admin") w Hne).
Defined.

(** X7 after one [Set]. *)
Lemma Set_other_keys_witness :
  let w : world := run [CallSet 7 (Dyn "user") (Dyn "alice")] (init 0) in
  Dyn "user" ≠ Dyn "role" (dyn := string)
  ∧ (GetOk 7 (Dyn "user") (Set_ 7 (Dyn "role") (Dyn "admin") w).2).1
    = (GetOk 7 (Dyn "user") w).1
  ∧ (Get 7 (Dyn "user") (Set_ 7 (Dyn "role") (Dyn "admin") w).2).1
    = (Get 7 (Dyn "user") w).1.
Proof.
  intros w.
  assert (Dyn "user" ≠ Dyn "role" (dyn := string)) as Hne by discriminate.
  split; [exact Hne|].
  apply (Set_other_keys 7 (Dyn "role") (Dyn "user") (Dyn "admin") w Hne).
Defined.

(** X8 after two [Set]s. *)
Lemma Delete_other_keys_witness :
  let w : world :=
    run [CallSet 7 (Dyn "user") (Dyn "alice"); CallSet 7 (Dyn "role") (Dyn "admin")] (init 0) in
  Dyn "user" ≠ Dyn "role" (dyn := string)
  ∧ (GetOk 7 (Dyn "user") (Delete 7 (Dyn "role") w).2).1 = (GetOk 7 (Dyn "user") w).1
  ∧ (Get 7 (Dyn "user") (Delete 7 (Dyn "role") w).2).1 = (Get 7 (Dyn "user") w).1
  ∧ bags (Delete 7 (Dyn "role") w).2 = bags w.
Proof.
  intros w.
  assert (Dyn "user" ≠ Dyn "role" (dyn := string)) as Hne by discriminate.
  split; [exact Hne|].
  apply (Delete_other_keys 7 (Dyn "role") (Dyn "user") w Hne).
Defined.

(** X17 for a handler that stores attributes for its own request and for
    another one. *)
Lemma ClearHandler_keeps_others_witness :
  let h : Handler (ResponseWriter := unit) :=
    λ _ r, bind (Set_ r (Dyn "user") (Dyn "alice"))
             (λ _, Set_ (r + 1) (Dyn "user") (Dyn "bob")) in
  let w : world := init 0 in
  (8 : request) ≠ 7
  ∧ ∃ res wh w', ServeHTTP h tt 7 w = (res, wh) ∧
      ServeHTTP (ClearHandler h) tt 7 w = (res, w') ∧
      table_of w' 8 = table_of wh 8 ∧
      datat (bag_of w' 8) !! 8 = datat (bag_of wh 8) !! 8 ∧
      attributes w' 8 = attributes wh 8 ∧
      heap w' = heap wh.
Proof.
  intros h w.
  assert ((8 : request) ≠ 7) as Hne by discriminate.
  split; [exact Hne|].
  apply (ClearHandler_keeps_others h tt 7 8 w Hne).
Defined.

(** C4 on a history that sets, reads and overwrites, with no [Delete]. *)
Lemma table_nonempty_until_Delete_witness :
  let cs : list (call (K := string) (V := string)) :=
    [CallSet 7 (Dyn "user") (Dyn "alice"); CallGet 7 (Dyn "role");
     CallSet 7 (Dyn "user") (Dyn "bob"); CallDelete 135 (Dyn "user")] in
  live 7 cs = true ∧ deleted_from 7 cs = false
  ∧ ∃ l w' m, GetAllOk 7 (run cs (init 0)) = (Ret (Some l, true), w') ∧
      heap w' !! l = Some m ∧ m ≠ ∅.
Proof.
  intros cs.
  assert (live 7 cs = true) as Hl by reflexivity.
  assert (deleted_from 7 cs = false) as Hd by reflexivity.
  split; [exact Hl|]. split; [exact Hd|].
  destruct (table_nonempty_until_Delete 0 cs 7) as (l & w' & m & Hg & Hm & Hne).
  rewrite Hl in Hg. exists l, w', m. split; [exact Hg|]. split; [exact Hm|].
  exact (Hne Hl Hd).
Defined.



(** X15 for a [Set] with a key that cannot be hashed, at the initial
    state. *)
Lemma calls_panic_only_hashing_witness :
  let c : Sync.call (K := string) (V := string) :=
    Sync.CallSet 7 Sync.Unhashable (Dyn "v") in
  let s := Sync.init 0 in
  Sync.mutexes s !!! offset (Sync.subject c) = Sync.Unlocked
  ∧ Sync.hashes_unhashable (Sync.store s) c = true
  ∧ ∃ s', Sync.exec c s = (Sync.Panicked Sync.hash_panic, s')
      ∧ Sync.mutexes s' !!! offset (Sync.subject c) ≠ Sync.Unlocked.
Proof.
  intros c s.
  assert (Sync.mutexes s !!! offset (Sync.subject c) = Sync.Unlocked) as Hm
    by (vm_compute; reflexivity).
  split; [exact Hm|]. split; [reflexivity|].
  exact (Sync.calls_panic_only_hashing c s Hm).
Defined.
